(** * A guarded, growable LIFO stack (src/stack.cpp)

    Shallow embedding of the stack of src/stack.cpp in the build that has
    both detectors compiled in (CANARY_PROTECT and HASH_PROTECT defined,
    UNPROTECT not defined), on an LP64 platform: [size_t], pointers and
    [canary_t] are 64-bit words, and arithmetic on them is modulo [2 ^ 64].

    The C heap is a flat byte-addressed memory together with the
    allocator's table of live blocks.  The C library keeps its record of a
    block in the word just below the block; a block whose record the program
    has overwritten is lost to the allocator, and [realloc] or [free] of it
    does not return.  A call that does not return has no result: the
    functions that may call the allocator return an [option], [None] for a
    call that does not return.  What the allocator answers when it does
    return is an input of the operations: [r : option Z] is [None] for an
    allocation failure and [Some q] for a block at address [q].

    The [log] calls, the [$( ... )] wrappers around statements and the dump
    write to the log only and are left out of the operations; [dump_stack]
    is modelled on its own, as the sequence of its calls to the log. *)

From Stdlib Require Import String Ascii.
From Stdlib Require Import ZArith List Lia Bool.
Import ListNotations.
Open Scope Z_scope.

(** ** Platform: machine words and the flat memory *)

Definition SIZE_MAX : Z := 2 ^ 64 - 1.
Definition PTRDIFF_MAX : Z := 2 ^ 63 - 1.

(** Arithmetic on [size_t] and on addresses is modulo [2 ^ 64]. *)
Definition size_wrap (x : Z) : Z := x mod 2 ^ 64.

Definition sizeof_ptr : Z := 8.
Definition sizeof_canary_t : Z := 8.

(** A memory maps every address to a byte. *)
Definition mem : Type := Z -> Z.

Definition byte_at (m : mem) (a : Z) : Z := m a mod 256.

(** Little-endian read and write of an [n]-byte unsigned word. *)
Fixpoint load (n : nat) (m : mem) (a : Z) : Z :=
  match n with
  | O => 0
  | S k => byte_at m a + 256 * load k m (a + 1)
  end.

Fixpoint store (n : nat) (m : mem) (a v : Z) : mem :=
  match n with
  | O => m
  | S k => store k (fun x => if x =? a then v mod 256 else m x) (a + 1) (v / 256)
  end.

(** [memset(a, c, n)]: [c] is converted to [unsigned char]. *)
Definition memset (m : mem) (a c n : Z) : mem :=
  fun x => if (a <=? x) && (x <? a + n) then c mod 256 else m x.

(** The bytes [a], [a + 1], ..., [a + n - 1] as a list. *)
Definition read_bytes (m : mem) (a n : Z) : list Z :=
  map (fun i => byte_at m (a + Z.of_nat i)) (seq 0 (Z.to_nat n)).

Fixpoint le_bytes (n : nat) (v : Z) : list Z :=
  match n with
  | O => []
  | S k => v mod 256 :: le_bytes k (v / 256)
  end.

(** A call that does not return has no result. *)
Definition returned {A : Type} (o : option A) : bool :=
  match o with
  | Some _ => true
  | None => false
  end.

Notation "' pat <- c1 ;; c2" :=
  (match c1 with Some pat => c2 | None => None end)
  (at level 61, pat pattern, c1 at next level, right associativity).

(** ** The allocator *)

(** A live block: its address, its size in bytes, and whether the
    allocator's record of it, the word just below the block, is still as
    the allocator left it. *)
Record block : Type := mkBlock {
  base : Z;
  extent : Z;
  intact : bool
}.

Record heap : Type := mkHeap {
  bytes : mem;
  blocks : list block
}.

Definition find_block (h : heap) (p : Z) : option block :=
  find (fun b => base b =? p) (blocks h).

Definition block_size (h : heap) (p : Z) : Z :=
  match find_block h p with
  | Some b => extent b
  | None => 0
  end.

Definition release (p : Z) (bl : list block) : list block :=
  filter (fun b => negb (base b =? p)) bl.

(** A write of the program to the [n] bytes from [a] on reaches the word
    below the block [b]. *)
Definition clobbers (a n : Z) (b : block) : bool :=
  (0 <? n) && (a <? base b) && (base b - sizeof_ptr <? a + n).

Definition written (a n : Z) (bl : list block) : list block :=
  map (fun b => if clobbers a n b then mkBlock (base b) (extent b) false else b) bl.

(** The writes of the program: the bytes change, and so may the state of
    the allocator's records. *)
Definition store_at (n : nat) (h : heap) (a v : Z) : heap :=
  mkHeap (store n (bytes h) a v) (written a (Z.of_nat n) (blocks h)).

Definition memset_at (h : heap) (a c n : Z) : heap :=
  mkHeap (memset (bytes h) a c n) (written a n (blocks h)).

(** An answer [q] to a request of [n] bytes is a block inside the address
    space; no object is larger than [PTRDIFF_MAX] bytes. *)
Definition granted (q n : Z) : bool :=
  (0 <? q) && (n <=? PTRDIFF_MAX) && (q + n <=? 2 ^ 64).

(** The allocator returns from a call on the pointer [p] when [p] is null
    or a live block whose record is intact. *)
Definition answers (h : heap) (p : Z) : bool :=
  (p =? 0) ||
  match find_block h p with
  | Some b => intact b
  | None => false
  end.

(** [realloc(p, n)] with the allocator's answer [r].  When the call returns
    with a block, the first [min(old size, n)] bytes of the old block are
    found in the new one and the old block is released; when it returns
    without one, nothing has changed and the result is the null pointer
    [0]. *)
Definition realloc (h : heap) (p n : Z) (r : option Z) : option (heap * Z) :=
  if answers h p then
    match r with
    | Some q =>
        if granted q n then
          let k := Z.min (block_size h p) n in
          let src := bytes h in
          Some (mkHeap (fun x => if (q <=? x) && (x <? q + k) then src (x - q + p)
                                 else src x)
                       (mkBlock q n true :: release p (blocks h)),
                q)
        else Some (h, 0)
    | None => Some (h, 0)
    end
  else None.

Definition free (h : heap) (p : Z) : option heap :=
  if answers h p then Some (mkHeap (bytes h) (release p (blocks h)))
  else None.

(** ** include/stack.h, include/hash.h, include/config.h

    The headers are not part of the sources at hand; what the code takes
    from them is collected here. *)

Class header : Type := mkHeader {
  sizeof_item_t : Z;                  (* sizeof(item_t); item_t is a signed integer *)
  CANARY : Z;
  SEED : Z;
  murmur_hash : list Z -> Z -> Z;     (* bytes, seed *)
  STK_BAD_ALLOC : Z;
  STK_EMPTY_POP : Z;
  INVALID_ITEMS : Z;
  INVALID_CAPACITY : Z;
  INVALID_SIZE : Z;
  INVALID_HASH : Z;
  INVALID_STK_LCNRY : Z;
  INVALID_STK_RCNRY : Z;
  INVALID_DATA_LCNRY : Z;
  INVALID_DATA_RCNRY : Z
}.

(** What the code relies on: an element fits in a [size_t], the canary
    constant is a [canary_t], and no error code or violation flag is zero. *)
Record header_ok (hd : header) : Prop := mkHeaderOk {
  item_width : 1 <= sizeof_item_t <= 8;
  canary_width : 0 <= CANARY < 2 ^ 64;
  bad_alloc_nz : STK_BAD_ALLOC <> 0;
  empty_pop_nz : STK_EMPTY_POP <> 0;
  items_nz : INVALID_ITEMS <> 0;
  capacity_nz : INVALID_CAPACITY <> 0;
  size_nz : INVALID_SIZE <> 0;
  hash_nz : INVALID_HASH <> 0;
  stk_lcnry_nz : INVALID_STK_LCNRY <> 0;
  stk_rcnry_nz : INVALID_STK_RCNRY <> 0;
  data_lcnry_nz : INVALID_DATA_LCNRY <> 0;
  data_rcnry_nz : INVALID_DATA_RCNRY <> 0
}.

(** Modelled from the spec: the declaration of [stack_t] (include/stack.h
    is missing).  The container has the buffer [items], [capacity], [size],
    the two guard words of the object and the checksum. *)
Record stack_t : Type := mkStack {
  stk_left_canary : Z;
  stk_items : Z;          (* address of the first element, 0 for nullptr *)
  stk_capacity : Z;
  stk_size : Z;
  stk_hash : Z;
  stk_right_canary : Z
}.

Definition set_items (stk : stack_t) (v : Z) : stack_t :=
  mkStack (stk_left_canary stk) v (stk_capacity stk) (stk_size stk)
          (stk_hash stk) (stk_right_canary stk).
Definition set_capacity (stk : stack_t) (v : Z) : stack_t :=
  mkStack (stk_left_canary stk) (stk_items stk) v (stk_size stk)
          (stk_hash stk) (stk_right_canary stk).
Definition set_size (stk : stack_t) (v : Z) : stack_t :=
  mkStack (stk_left_canary stk) (stk_items stk) (stk_capacity stk) v
          (stk_hash stk) (stk_right_canary stk).
Definition set_hash (stk : stack_t) (v : Z) : stack_t :=
  mkStack (stk_left_canary stk) (stk_items stk) (stk_capacity stk) (stk_size stk)
          v (stk_right_canary stk).
Definition set_left_canary (stk : stack_t) (v : Z) : stack_t :=
  mkStack v (stk_items stk) (stk_capacity stk) (stk_size stk)
          (stk_hash stk) (stk_right_canary stk).
Definition set_right_canary (stk : stack_t) (v : Z) : stack_t :=
  mkStack (stk_left_canary stk) (stk_items stk) (stk_capacity stk) (stk_size stk)
          (stk_hash stk) v.

(** Modelled from the spec: the object representation of a [stack_t], as
    [murmur_hash] reads it (the layout is in the missing include/stack.h);
    the fields in the order above, one 64-bit word each. *)
Definition stack_bytes (stk : stack_t) : list Z :=
  le_bytes 8 (stk_left_canary stk) ++ le_bytes 8 (stk_items stk) ++
  le_bytes 8 (stk_capacity stk) ++ le_bytes 8 (stk_size stk) ++
  le_bytes 8 (stk_hash stk) ++ le_bytes 8 (stk_right_canary stk).

(** The stack object and the heap it points into. *)
Record world : Type := mkWorld {
  stk : stack_t;
  hp : heap
}.

Definition zero_stack : stack_t := mkStack 0 0 0 0 0 0.

(** ** The code of src/stack.cpp *)

Section Stack.

Context {hd : header}.

Definition FILL_BYTE : Z := 117.   (* 'u' *)

Definition INIT_CAP : Z := 8.
Definition CAP_FACTOR : Z := 2.
Definition CAP_MAX : Z := size_wrap (Z.lnot (Z.shiftr SIZE_MAX 1)).

(** [item_t] is a signed integer of [sizeof_item_t] bytes (the dump prints
    elements with [%d]). *)
Definition item_bits : Z := 8 * sizeof_item_t.

Definition representable (v : Z) : Prop :=
  - 2 ^ (item_bits - 1) <= v < 2 ^ (item_bits - 1).

(** The signed value of a bit pattern; also the conversion of a [size_t] to
    [item_t]. *)
Definition item_of_bits (u : Z) : Z :=
  let u' := u mod 2 ^ item_bits in
  if u' <? 2 ^ (item_bits - 1) then u' else u' - 2 ^ item_bits.

(** The conversion of an [item_t] to [size_t]. *)
Definition size_t_of_item (v : Z) : Z := size_wrap v.

(** [items + i] for an [item_t *items] and a [size_t i]: the address of
    [items[i]]. *)
Definition item_addr (items i : Z) : Z := size_wrap (items + i * sizeof_item_t).

Definition load_item (m : mem) (a : Z) : Z :=
  item_of_bits (load (Z.to_nat sizeof_item_t) m a).

Definition store_item (m : mem) (a v : Z) : mem :=
  store (Z.to_nat sizeof_item_t) m a v.

Definition store_item_at (h : heap) (a v : Z) : heap :=
  store_at (Z.to_nat sizeof_item_t) h a v.

Definition get_poison (byte : Z) : Z :=
  let poison := memset (store_item (fun _ => 0) 0 0) 0 byte sizeof_item_t in
  load_item poison 0.

Definition POISON : Z := get_poison FILL_BYTE.

Definition expandable (s : stack_t) : bool :=
  stk_capacity s =? stk_size s.

Definition shrinkable (s : stack_t) : bool :=
  (stk_size s <=? size_wrap (stk_capacity s / size_wrap (CAP_FACTOR * CAP_FACTOR) + 1))
  && (INIT_CAP <? stk_capacity s).

(** [error] is the caller's [int *]: [None] for a null pointer, [Some e] for
    a cell that holds [e]. *)
Definition set_error (error : option Z) (value : Z) : option Z :=
  match error with
  | Some _ => Some value
  | None => None
  end.

(** The left guard word of the buffer is the [canary_t] just below
    [items], that is, below the block that [realloc] returned. *)
Definition left_canary (items capacity : Z) : Z :=
  items - sizeof_canary_t.

Definition right_canary (items capacity : Z) : Z :=
  items + size_wrap (sizeof_item_t * capacity) + sizeof_ptr
  - size_wrap (sizeof_item_t * capacity) mod sizeof_ptr.

Definition hash_stack (s : stack_t) (m : mem) (seed : Z) : stack_t * Z :=
  let hash := stk_hash s in
  let s := set_hash s 0 in
  let stk_hash := murmur_hash (stack_bytes s) seed in
  let data_hash :=
    murmur_hash (read_bytes m (stk_items s) (size_wrap (stk_capacity s * sizeof_item_t))) seed in
  let s := set_hash s hash in
  (s, Z.lxor stk_hash data_hash).

(** The byte count asked of [realloc] for [capacity] elements. *)
Definition alloc_bytes (capacity : Z) : Z :=
  let cap := size_wrap (capacity * sizeof_item_t) in
  size_wrap (cap + size_wrap (size_wrap (sizeof_ptr - cap mod sizeof_ptr) + 2 * sizeof_canary_t)).

Definition realloc_stack (s : stack_t) (h : heap) (capacity : Z) (r : option Z)
  : option (heap * Z) :=
  let cap := alloc_bytes capacity in
  '(h, items) <- realloc h (stk_items s) cap r ;;
  if items =? 0 then Some (h, 0)
  else
    let h := memset_at h (item_addr items (stk_size s)) FILL_BYTE
                       (size_wrap (cap - size_wrap (stk_size s * sizeof_item_t))) in
    let h := store_at 8 h (right_canary items capacity) (Z.lxor CANARY items) in
    let h := store_at 8 h (left_canary items capacity) (Z.lxor CANARY items) in
    Some (h, items).

Definition verify_empty_stack (s : stack_t) : Z :=
  let vrf := 0 in
  let vrf := if stk_items s =? 0 then vrf else Z.lor vrf INVALID_ITEMS in
  let vrf := if stk_capacity s =? 0 then vrf else Z.lor vrf INVALID_CAPACITY in
  let vrf := if stk_size s =? 0 then vrf else Z.lor vrf INVALID_SIZE in
  let vrf := if stk_hash s =? 0 then vrf else Z.lor vrf INVALID_HASH in
  let vrf := if stk_left_canary s =? 0 then vrf else Z.lor vrf INVALID_STK_LCNRY in
  let vrf := if stk_right_canary s =? 0 then vrf else Z.lor vrf INVALID_STK_RCNRY in
  vrf.

Definition verify_stack (s : stack_t) (m : mem) : stack_t * Z :=
  let vrf := 0 in
  let vrf := if (CAP_MAX <? stk_capacity s) || (stk_capacity s <? INIT_CAP)
             then Z.lor vrf INVALID_CAPACITY else vrf in
  let vrf := if stk_capacity s <? stk_size s then Z.lor vrf INVALID_SIZE else vrf in
  let cnry := Z.lxor CANARY (stk_items s) in
  let vrf :=
    if stk_items s =? 0 then vrf
    else
      let vrf := if load 8 m (left_canary (stk_items s) (stk_capacity s)) =? cnry
                 then vrf else Z.lor vrf INVALID_DATA_LCNRY in
      if load 8 m (right_canary (stk_items s) (stk_capacity s)) =? cnry
      then vrf else Z.lor vrf INVALID_DATA_RCNRY in
  let vrf := if stk_left_canary s =? CANARY then vrf else Z.lor vrf INVALID_STK_LCNRY in
  let vrf := if stk_right_canary s =? CANARY then vrf else Z.lor vrf INVALID_STK_RCNRY in
  if stk_items s =? 0 then (s, vrf)
  else
    let '(s, h) := hash_stack s m SEED in
    (s, if stk_hash s =? h then vrf else Z.lor vrf INVALID_HASH).

(** The [finally:] label of the three operations: a nonzero [err] is handed
    to [set_error] (the dump that follows only writes to the log). *)
Definition finally (err : Z) (error : option Z) : option Z :=
  if err =? 0 then error else set_error error err.

(** The result is the world, the caller's error cell, and whether the
    returned pointer is [stk] ([true]) or [nullptr] ([false]). *)
Definition construct_stack (w : world) (error : option Z) (r : option Z)
  : option (world * option Z * bool) :=
  let s := stk w in
  let err := verify_empty_stack s in
  if negb (err =? 0) then Some (w, finally err error, false)
  else
    '(h, items) <- realloc_stack s (hp w) INIT_CAP r ;;
    if items =? 0 then Some (mkWorld s h, finally STK_BAD_ALLOC error, false)
    else
      let s := set_capacity s INIT_CAP in
      let s := set_items s items in
      let s := set_size s 0 in
      let s := set_left_canary s CANARY in
      let s := set_right_canary s CANARY in
      let '(s, hash) := hash_stack s (bytes h) SEED in
      let s := set_hash s hash in
      let '(s, err) := verify_stack s (bytes h) in
      Some (mkWorld s h, finally err error, err =? 0).

Definition push_stack (w : world) (item : Z) (error : option Z) (r : option Z)
  : option (world * option Z) :=
  let '(s, err) := verify_stack (stk w) (bytes (hp w)) in
  if negb (err =? 0) then Some (mkWorld s (hp w), finally err error)
  else
    ' grown <-
      (if expandable s then
         let capacity := size_wrap (stk_capacity s * CAP_FACTOR) in
         '(h, items) <- realloc_stack s (hp w) capacity r ;;
         if items =? 0 then Some None
         else Some (Some (set_items (set_capacity s capacity) items, h))
       else Some (Some (s, hp w))) ;;
    match grown with
    | None => Some (mkWorld s (hp w), finally STK_BAD_ALLOC error)
    | Some (s, h) =>
        let h := store_item_at h (item_addr (stk_items s) (stk_size s)) item in
        let s := set_size s (size_wrap (stk_size s + 1)) in
        let '(s, hash) := hash_stack s (bytes h) SEED in
        let s := set_hash s hash in
        let '(s, err) := verify_stack s (bytes h) in
        Some (mkWorld s h, finally err error)
    end.

(** The local [item] of [pop_stack] is a [size_t]; the result is converted
    back to [item_t]. *)
Definition pop_stack (w : world) (error : option Z) (r : option Z)
  : option (world * option Z * Z) :=
  let item := size_t_of_item POISON in
  let '(s, err) := verify_stack (stk w) (bytes (hp w)) in
  if negb (err =? 0) then Some (mkWorld s (hp w), finally err error, item_of_bits item)
  else if stk_size s =? 0
  then Some (mkWorld s (hp w), finally STK_EMPTY_POP error, item_of_bits item)
  else
    ' shrunk <-
      (if shrinkable s then
         let capacity := stk_capacity s / CAP_FACTOR in
         '(h, items) <- realloc_stack s (hp w) capacity r ;;
         if items =? 0 then Some None
         else Some (Some (set_capacity (set_items s items) capacity, h))
       else Some (Some (s, hp w))) ;;
    match shrunk with
    | None => Some (mkWorld s (hp w), finally STK_BAD_ALLOC error, item_of_bits item)
    | Some (s, h) =>
        let s := set_size s (size_wrap (stk_size s - 1)) in
        let top := item_addr (stk_items s) (stk_size s) in
        let item := size_t_of_item (load_item (bytes h) top) in
        let h := store_item_at h top POISON in
        let '(s, hash) := hash_stack s (bytes h) SEED in
        let s := set_hash s hash in
        let '(s, err) := verify_stack s (bytes h) in
        Some (mkWorld s h, finally err error, item_of_bits item)
    end.

Definition destruct_stack (w : world) : option world :=
  let s := stk w in
  ' h <- (if stk_items s =? 0 then Some (hp w) else free (hp w) (stk_items s)) ;;
  let s := set_items s 0 in
  let s := set_capacity s 0 in
  let s := set_size s 0 in
  let s := set_hash s 0 in
  let s := set_left_canary s 0 in
  let s := set_right_canary s 0 in
  Some (mkWorld s h).

(** ** Vocabulary of the statements *)

(** The checksum that [hash_stack] returns and the mask that [verify_stack]
    returns, as functions of the state. *)
Definition hash_value (s : stack_t) (m : mem) : Z := snd (hash_stack s m SEED).
Definition verify_mask (s : stack_t) (m : mem) : Z := snd (verify_stack s m).

(** A stack is valid when the verifier finds no violation. *)
Definition valid (w : world) : Prop := verify_mask (stk w) (bytes (hp w)) = 0.

(** The allocator's answer [r] to a request of [n] bytes is a block. *)
Definition grants (r : option Z) (n : Z) : bool :=
  match r with
  | Some q => granted q n
  | None => false
  end.

(** The allocator returns from a call on the buffer of the stack. *)
Definition reachable (w : world) : bool := answers (hp w) (stk_items (stk w)).

(** What [realloc_stack] returns, for the calls that return. *)
Definition reallocated (s : stack_t) (h : heap) (capacity : Z) (r : option Z)
  : heap * Z :=
  match realloc_stack s h capacity r with
  | Some hq => hq
  | None => (h, 0)
  end.

(** A caller that checks for errors: the cell holds 0 before the call, and
    the operation reported an error iff it holds something else after. *)
Definition push_checked (w : world) (item : Z) (r : option Z) : option (world * bool) :=
  '(w', e) <- push_stack w item (Some 0) r ;;
  Some (w', match e with Some 0 => true | _ => false end).

Definition pop_checked (w : world) (r : option Z) : option (world * bool * Z) :=
  '(w', e, item) <- pop_stack w (Some 0) r ;;
  Some (w', match e with Some 0 => true | _ => false end, item).

(** Pushing a list of values, each with its allocator answer; [true] when no
    push reported an error. *)
Fixpoint push_all (w : world) (xs : list (Z * option Z)) : option (world * bool) :=
  match xs with
  | [] => Some (w, true)
  | (x, r) :: xs' =>
      '(w1, ok) <- push_checked w x r ;;
      '(w2, oks) <- push_all w1 xs' ;;
      Some (w2, ok && oks)
  end.

(** Popping once per allocator answer; the popped values in the order of the
    calls, and [true] when no pop reported an error. *)
Fixpoint pop_all (w : world) (rs : list (option Z)) : option (world * bool * list Z) :=
  match rs with
  | [] => Some (w, true, [])
  | r :: rs' =>
      '(w1, ok, x) <- pop_checked w r ;;
      '(w2, oks, xs) <- pop_all w1 rs' ;;
      Some (w2, ok && oks, x :: xs)
  end.

(** Arbitrary use of a constructed stack. *)
Inductive op : Type :=
| Push (item : Z) (r : option Z)
| Pop (r : option Z).

Definition step (w : world) (o : op) : option world :=
  match o with
  | Push item r => '(w', _) <- push_stack w item None r ;; Some w'
  | Pop r => '(w', _, _) <- pop_stack w None r ;; Some w'
  end.

Fixpoint run (w : world) (ops : list op) : option world :=
  match ops with
  | [] => Some w
  | o :: ops' => ' w' <- step w o ;; run w' ops'
  end.

(** The states that the operations can produce: a successful
    [construct_stack], then pushes and pops that return. *)
Definition live (w : world) : Prop :=
  exists w0 error r w1 e ops,
    construct_stack w0 error r = Some (w1, e, true) /\ run w1 ops = Some w.

(** The state in which the element is removed: after the shrink, if any. *)
Definition pop_ready (w : world) (r : option Z) : stack_t * heap :=
  if shrinkable (stk w) then
    let capacity := stk_capacity (stk w) / CAP_FACTOR in
    let '(h, items) := reallocated (stk w) (hp w) capacity r in
    (set_capacity (set_items (stk w) items) capacity, h)
  else (stk w, hp w).

(** What the removal itself does to that state. *)
Definition pop_commit (sh : stack_t * heap) : world :=
  let '(s, h) := sh in
  let s := set_size s (size_wrap (stk_size s - 1)) in
  let h := store_item_at h (item_addr (stk_items s) (stk_size s)) POISON in
  mkWorld (set_hash s (hash_value s (bytes h))) h.

Definition pop_top (sh : stack_t * heap) : Z :=
  let '(s, h) := sh in
  load_item (bytes h) (item_addr (stk_items s) (size_wrap (stk_size s - 1))).

(** The state in which the element is stored: after the growth, if any. *)
Definition push_ready (w : world) (r : option Z) : stack_t * heap :=
  if expandable (stk w) then
    let capacity := size_wrap (stk_capacity (stk w) * CAP_FACTOR) in
    let '(h, items) := reallocated (stk w) (hp w) capacity r in
    (set_items (set_capacity (stk w) capacity) items, h)
  else (stk w, hp w).

(** What storing the element does to that state. *)
Definition push_commit (sh : stack_t * heap) (item : Z) : world :=
  let '(s, h) := sh in
  let h := store_item_at h (item_addr (stk_items s) (stk_size s)) item in
  let s := set_size s (size_wrap (stk_size s + 1)) in
  mkWorld (set_hash s (hash_value s (bytes h))) h.

(** The world that [construct_stack] builds once the buffer is allocated. *)
Definition construct_commit (w : world) (r : option Z) : world :=
  let '(h, items) := reallocated (stk w) (hp w) INIT_CAP r in
  let s := set_capacity (stk w) INIT_CAP in
  let s := set_items s items in
  let s := set_size s 0 in
  let s := set_left_canary s CANARY in
  let s := set_right_canary s CANARY in
  mkWorld (set_hash s (hash_value s (bytes h))) h.

(** The buffer of [s] in the heap [h] holds the elements [l], bottom first:
    the buffer is the one [construct_stack] allocated, inside the address
    space, the allocator's record of it is gone, the guard words of the
    object and of the buffer are in place, and element [i] of [l] is stored
    at index [i]. *)
Record buffer_ok (s : stack_t) (h : heap) (l : list Z) : Prop := mkBufferOk {
  bo_capacity : stk_capacity s = INIT_CAP;
  bo_size : stk_size s = Z.of_nat (length l);
  bo_room : stk_size s <= stk_capacity s;
  bo_left : stk_left_canary s = CANARY;
  bo_right : stk_right_canary s = CANARY;
  bo_items : 0 < stk_items s;
  bo_end : stk_items s + alloc_bytes (stk_capacity s) <= 2 ^ 64;
  bo_lost : answers h (stk_items s) = false;
  bo_data_left :
    load 8 (bytes h) (left_canary (stk_items s) (stk_capacity s)) =
    Z.lxor CANARY (stk_items s);
  bo_data_right :
    load 8 (bytes h) (right_canary (stk_items s) (stk_capacity s)) =
    Z.lxor CANARY (stk_items s);
  bo_elements :
    forall i, (i < length l)%nat ->
      load_item (bytes h) (item_addr (stk_items s) (Z.of_nat i)) = nth i l 0
}.

(** The stack holds [l] and its checksum is up to date. *)
Definition holds (w : world) (l : list Z) : Prop :=
  buffer_ok (stk w) (hp w) l /\
  stk_hash (stk w) = hash_value (stk w) (bytes (hp w)).

(** [stk->items[i]]. *)
Definition slot (w : world) (i : Z) : Z :=
  load_item (bytes (hp w)) (item_addr (stk_items (stk w)) i).

(** The elements of the stack, bottom first. *)
Definition contents (w : world) : list Z :=
  map (fun i => slot w (Z.of_nat i)) (seq 0 (Z.to_nat (stk_size (stk w)))).

(** Every bit of [flag] is set in [mask]; the dump tests [vrf & flag]. *)
Definition has_flag (mask flag : Z) : Prop := Z.land mask flag = flag.

(** A write of the byte [b] at address [a] that bypasses the operations. *)
Definition poke (w : world) (a b : Z) : world :=
  mkWorld (stk w)
          (mkHeap (fun x => if x =? a then b else bytes (hp w) x) (blocks (hp w))).

(** Every slot between the size and the capacity holds the poison value. *)
Definition poisoned (w : world) : Prop :=
  forall i, stk_size (stk w) <= i < stk_capacity (stk w) -> slot w i = POISON.

(** *** The diagnostic dump

    [log_buf] and [log_flush] belong to the log (include/log.h); the dump is
    the sequence of its calls to them, each [log_buf] with its format string
    and its arguments. *)

Inductive log_arg : Type :=
| arg_int (z : Z)
| arg_str (s : string).

Inductive log_call : Type :=
| log_buf (fmt : string) (args : list log_arg)
| log_flush.

Definition nl : string := String (ascii_of_nat 10) EmptyString.
Definition dq : string := String (ascii_of_nat 34) EmptyString.

Definition rule : string := ("----------------------------------------------" ++ nl)%string.

Definition indicate_err (condition : Z) : string :=
  if negb (condition =? 0)
  then ("<font color=" ++ dq ++ "red" ++ dq ++ "><b>error</b></font>")%string
  else ("<font color=" ++ dq ++ "green" ++ dq ++ "><b>ok</b></font>")%string.

(** The body of the loop over the slots. *)
Definition dump_slot (s : stack_t) (m : mem) (i : Z) : log_call :=
  let item := load_item m (item_addr (stk_items s) i) in
  if item =? POISON then
    log_buf ("| 0x%.4lX stack[%7ld] = %18s |" ++ nl)%string
            [arg_int (size_wrap (sizeof_item_t * i)); arg_int i; arg_str "poison"]
  else
    log_buf ("| 0x%.4lX stack[%7ld] = %18d |" ++ nl)%string
            [arg_int (size_wrap (sizeof_item_t * i)); arg_int i; arg_int item].

Definition dump_stack (s : stack_t) (m : mem) : stack_t * list log_call :=
  let '(s, report) :=
    if stk_items s =? 0 then
      let vrf := verify_empty_stack s in
      (s,
       [log_buf rule [];
        log_buf (" Empty stack: %s" ++ nl)%string [arg_str (indicate_err vrf)];
        log_buf (" Size:     %10ld %s" ++ nl)%string
                [arg_int (stk_size s); arg_str (indicate_err (Z.land vrf INVALID_SIZE))];
        log_buf (" Capacity: %10ld %s" ++ nl)%string
                [arg_int (stk_capacity s);
                 arg_str (indicate_err (Z.land vrf INVALID_CAPACITY))];
        log_buf (" Address start: nullptr" ++ nl)%string [];
        log_buf rule []])
    else
      let '(s, vrf) := verify_stack s m in
      let '(s, hash) := hash_stack s m SEED in
      let lc := left_canary (stk_items s) (stk_capacity s) in
      let rc := right_canary (stk_items s) (stk_capacity s) in
      (s,
       [log_buf rule [];
        log_buf (" Stack: %s" ++ nl)%string [arg_str (indicate_err vrf)];
        log_buf (" Size:     %15ld %s" ++ nl)%string
                [arg_int (stk_size s); arg_str (indicate_err (Z.land vrf INVALID_SIZE))];
        log_buf (" Capacity: %15ld %s" ++ nl)%string
                [arg_int (stk_capacity s);
                 arg_str (indicate_err (Z.land vrf INVALID_CAPACITY))];
        log_buf (" Address start: 0x%lx" ++ nl)%string [arg_int (stk_items s)];
        log_buf (" Address   end: 0x%lx" ++ nl)%string
                [arg_int (size_wrap (stk_items s
                                     + size_wrap (sizeof_item_t * stk_capacity s)))];
        log_buf rule [];
        log_buf (" Hash       (hex): %8x %s" ++ nl)%string
                [arg_int hash; arg_str (indicate_err (Z.land vrf INVALID_HASH))];
        log_buf (" Saved hash (hex): %8x" ++ nl)%string [arg_int (stk_hash s)];
        log_buf rule [];
        log_buf (" Left  stack canary(hex) = %lx %s" ++ nl)%string
                [arg_int (stk_left_canary s);
                 arg_str (indicate_err (Z.land vrf INVALID_STK_LCNRY))];
        log_buf (" Right stack canary(hex) = %lx %s" ++ nl)%string
                [arg_int (stk_right_canary s);
                 arg_str (indicate_err (Z.land vrf INVALID_STK_RCNRY))];
        log_buf rule [];
        log_buf (" Left  data canary(hex) =  %lx %s" ++ nl ++ " Address: 0x%lx" ++ nl)%string
                [arg_int (load 8 m lc);
                 arg_str (indicate_err (Z.land vrf INVALID_DATA_LCNRY)); arg_int lc];
        log_buf nl [];
        log_buf (" Right data canary(hex) =  %lx %s" ++ nl ++ " Address: 0x%lx" ++ nl)%string
                [arg_int (load 8 m rc);
                 arg_str (indicate_err (Z.land vrf INVALID_DATA_RCNRY)); arg_int rc];
        log_buf rule []]
       ++ map (fun i => dump_slot s m (Z.of_nat i)) (seq 0 (Z.to_nat (stk_capacity s)))
       ++ [log_buf rule []]) in
  (s, report ++ [log_buf (nl ++ nl ++ nl)%string []; log_flush]).

End Stack.

(** ** An instance of the headers, to run the code

    The constants are stand-ins: four-byte elements, one bit per violation
    flag, and a small polynomial mixer in the place of the murmur hash. *)

Definition mix (bs : list Z) (seed : Z) : Z :=
  fold_left (fun acc b => (acc * 31 + b + 7) mod 2 ^ 32) bs (seed mod 2 ^ 32).

Definition demo_header : header :=
  mkHeader 4 0xBADC0FFEE0DDF00D 2021 mix
           0x100 0x200 0x04 0x01 0x02 0x08 0x10 0x20 0x40 0x80.

Definition empty_heap : heap := mkHeap (fun _ => 0) [].

Definition demo_zero : world := mkWorld zero_stack empty_heap.

(** A freshly constructed stack, its buffer at address 4096. *)
Definition demo_fresh : world :=
  match construct_stack (hd := demo_header) demo_zero None (Some 4096) with
  | Some (w, _, _) => w
  | None => demo_zero
  end.

(** Pushing 1, 2, ..., [n], and popping [n] times; the allocator would
    grant a block at 8192 to a push and one at 12288 to a pop. *)
Definition demo_pushes (n : nat) : list op :=
  map (fun i => Push (Z.of_nat i) (Some 8192)) (seq 1 n).

Definition demo_pops (n : nat) : list op := repeat (Pop (Some 12288)) n.

Definition demo_run (ops : list op) : world :=
  match run (hd := demo_header) demo_fresh ops with
  | Some w => w
  | None => demo_fresh
  end.

(** Three elements in the initial buffer, and a full stack: eight. *)
Definition demo_three : world := demo_run (demo_pushes 3).
Definition demo_full : world := demo_run (demo_pushes 8).

(** Stack objects that were written from outside the operations, with a
    null [items]: the verifier looks at neither the guard words of the
    buffer nor the checksum, and accepts them.  The first claims capacity 9
    and one element; the second is full at the initial capacity; the third
    claims the largest capacity the verifier accepts, and to be full. *)
Definition null_stack (capacity size : Z) : world :=
  mkWorld (mkStack (CANARY (header := demo_header)) 0 capacity size 0
                   (CANARY (header := demo_header)))
          empty_heap.

Definition demo_null_huge : world := null_stack (2 ^ 63) (2 ^ 63).

(** Eight values, the poison pattern among them. *)
Definition demo_lifo : list (Z * option Z) :=
  [(7, None); (-1, None); (0x75757575, None); (0, None); (-2147483648, None);
   (2147483647, None); (42, None); (8, None)].

Definition demo_answers : list (option Z) := repeat None 8.

Definition demo_pushed : world :=
  match push_all (hd := demo_header) demo_fresh demo_lifo with
  | Some (w, _) => w
  | None => demo_fresh
  end.

(** ** Basic facts: the verifier and the error cell *)

Section Verifier.

Context {hd : header}.

Lemma set_hash_restore (s : stack_t) :
  set_hash (set_hash s 0) (stk_hash s) = s.
Proof. destruct s; reflexivity. Qed.

Lemma hash_stack_restores (s : stack_t) (m : mem) (seed : Z) :
  fst (hash_stack s m seed) = s.
Proof. unfold hash_stack; cbn [fst]. apply set_hash_restore. Qed.

Lemma hash_stack_eq (s : stack_t) (m : mem) :
  hash_stack s m SEED = (s, hash_value s m).
Proof.
  unfold hash_value. rewrite (surjective_pairing (hash_stack s m SEED)) at 1.
  rewrite hash_stack_restores. reflexivity.
Qed.

Lemma verify_stack_restores (s : stack_t) (m : mem) :
  fst (verify_stack s m) = s.
Proof.
  unfold verify_stack.
  destruct (stk_items s =? 0); [reflexivity|].
  rewrite hash_stack_eq. reflexivity.
Qed.

Lemma verify_stack_eq (s : stack_t) (m : mem) :
  verify_stack s m = (s, verify_mask s m).
Proof.
  unfold verify_mask. rewrite (surjective_pairing (verify_stack s m)) at 1.
  rewrite verify_stack_restores. reflexivity.
Qed.

Lemma finally_0 (error : option Z) : finally 0 error = error.
Proof. reflexivity. Qed.

Lemma finally_nz (err : Z) (error : option Z) :
  err <> 0 -> finally err error = set_error error err.
Proof. unfold finally. intros H. apply Z.eqb_neq in H. rewrite H. reflexivity. Qed.

Lemma finally_some_0 (err : Z) : finally err (Some 0) = Some 0 <-> err = 0.
Proof.
  unfold finally. destruct (Z.eqb_spec err 0) as [->|H]; cbn.
  - tauto.
  - split; [intros E; congruence | contradiction].
Qed.

Lemma lor_nz_r (a b : Z) : b <> 0 -> Z.lor a b <> 0.
Proof. intros H E. apply Z.lor_eq_0_iff in E. tauto. Qed.

Lemma lor_nz_l (a b : Z) : a <> 0 -> Z.lor a b <> 0.
Proof. intros H E. apply Z.lor_eq_0_iff in E. tauto. Qed.

Lemma world_eta (w : world) : mkWorld (stk w) (hp w) = w.
Proof. destruct w; reflexivity. Qed.

Lemma verify_empty_zero (s : stack_t) :
  header_ok hd -> verify_empty_stack s = 0 -> s = zero_stack.
Proof.
  intros [] E. destruct s as [lc it cp sz hs rc]. unfold verify_empty_stack in E.
  cbn [stk_left_canary stk_items stk_capacity stk_size stk_hash stk_right_canary] in E.
  destruct (Z.eqb_spec rc 0); [|apply lor_nz_r in E; tauto].
  destruct (Z.eqb_spec lc 0); [|apply lor_nz_r in E; tauto].
  destruct (Z.eqb_spec hs 0); [|apply lor_nz_r in E; tauto].
  destruct (Z.eqb_spec sz 0); [|apply lor_nz_r in E; tauto].
  destruct (Z.eqb_spec cp 0); [|apply lor_nz_r in E; tauto].
  destruct (Z.eqb_spec it 0); [|apply lor_nz_r in E; tauto].
  subst; reflexivity.
Qed.

Lemma verify_empty_zero_stack : verify_empty_stack zero_stack = 0.
Proof. reflexivity. Qed.

(** When the mask is zero every single check passed. *)
Lemma verify_mask_0 (s : stack_t) (m : mem) :
  header_ok hd -> verify_mask s m = 0 ->
  INIT_CAP <= stk_capacity s <= CAP_MAX /\ stk_size s <= stk_capacity s /\
  stk_left_canary s = CANARY /\ stk_right_canary s = CANARY /\
  (stk_items s <> 0 ->
   load 8 m (left_canary (stk_items s) (stk_capacity s)) = Z.lxor CANARY (stk_items s) /\
   load 8 m (right_canary (stk_items s) (stk_capacity s)) = Z.lxor CANARY (stk_items s) /\
   stk_hash s = hash_value s m).
Proof.
  intros [] E. unfold verify_mask, verify_stack in E.
  destruct (stk_items s =? 0) eqn:Ei.
  - cbn [snd] in E.
    destruct (Z.eqb_spec (stk_right_canary s) CANARY); [|apply lor_nz_r in E; tauto].
    destruct (Z.eqb_spec (stk_left_canary s) CANARY); [|apply lor_nz_r in E; tauto].
    destruct (Z.ltb_spec (stk_capacity s) (stk_size s)); [apply lor_nz_r in E; tauto|].
    destruct (Z.ltb_spec CAP_MAX (stk_capacity s)); cbn [orb] in E;
      [apply lor_nz_r in E; tauto|].
    destruct (Z.ltb_spec (stk_capacity s) INIT_CAP); [apply lor_nz_r in E; tauto|].
    apply Z.eqb_eq in Ei. repeat split; try lia; try assumption; contradiction.
  - rewrite hash_stack_eq in E. cbn [snd] in E.
    destruct (Z.eqb_spec (stk_hash s) (hash_value s m)); [|apply lor_nz_r in E; tauto].
    destruct (Z.eqb_spec (stk_right_canary s) CANARY); [|apply lor_nz_r in E; tauto].
    destruct (Z.eqb_spec (stk_left_canary s) CANARY); [|apply lor_nz_r in E; tauto].
    destruct (Z.eqb_spec (load 8 m (right_canary (stk_items s) (stk_capacity s)))
                         (Z.lxor CANARY (stk_items s))); [|apply lor_nz_r in E; tauto].
    destruct (Z.eqb_spec (load 8 m (left_canary (stk_items s) (stk_capacity s)))
                         (Z.lxor CANARY (stk_items s))); [|apply lor_nz_r in E; tauto].
    destruct (Z.ltb_spec (stk_capacity s) (stk_size s)); [apply lor_nz_r in E; tauto|].
    destruct (Z.ltb_spec CAP_MAX (stk_capacity s)); cbn [orb] in E;
      [apply lor_nz_r in E; tauto|].
    destruct (Z.ltb_spec (stk_capacity s) INIT_CAP); [apply lor_nz_r in E; tauto|].
    repeat split; try lia; assumption.
Qed.

(** Conversely, a state that passes every check has mask zero. *)
Lemma verify_mask_pass (s : stack_t) (m : mem) :
  INIT_CAP <= stk_capacity s <= CAP_MAX -> stk_size s <= stk_capacity s ->
  stk_left_canary s = CANARY -> stk_right_canary s = CANARY ->
  load 8 m (left_canary (stk_items s) (stk_capacity s)) = Z.lxor CANARY (stk_items s) ->
  load 8 m (right_canary (stk_items s) (stk_capacity s)) = Z.lxor CANARY (stk_items s) ->
  stk_hash s = hash_value s m ->
  verify_mask s m = 0.
Proof.
  intros Hc Hs Hl Hr Hdl Hdr Hh. unfold verify_mask, verify_stack.
  rewrite hash_stack_eq, Hdl, Hdr, Hl, Hr, <- Hh, !Z.eqb_refl.
  destruct (Z.ltb_spec CAP_MAX (stk_capacity s)); [lia|].
  destruct (Z.ltb_spec (stk_capacity s) INIT_CAP); [lia|].
  destruct (Z.ltb_spec (stk_capacity s) (stk_size s)); [lia|].
  cbn. destruct (stk_items s =? 0); reflexivity.
Qed.

Lemma CAP_MAX_val : CAP_MAX = 2 ^ 63.
Proof. reflexivity. Qed.

End Verifier.

(** ** The allocator and its records *)

Section Allocator.

Lemma answers_null (h : heap) : answers h 0 = true.
Proof. reflexivity. Qed.

Lemma find_written (a n p : Z) (bl : list block) :
  find (fun b => base b =? p) (written a n bl) =
  option_map (fun b => if clobbers a n b then mkBlock (base b) (extent b) false else b)
             (find (fun b => base b =? p) bl).
Proof.
  induction bl as [|b bl IH]; [reflexivity|]. unfold written in *.
  cbn [map find]. destruct (clobbers a n b) eqn:C; cbn [base];
    destruct (base b =? p); cbn [option_map]; rewrite ?C; auto.
Qed.

(** A record that is gone stays gone, whatever the program writes. *)
Lemma answers_written (m m' : mem) (a n p : Z) (bl : list block) :
  answers (mkHeap m bl) p = false ->
  answers (mkHeap m' (written a n bl)) p = false.
Proof.
  unfold answers, find_block. cbn [blocks]. rewrite find_written.
  destruct (p =? 0); [discriminate|]. cbn [orb].
  destruct (find _ bl) as [b|]; cbn [option_map]; [|reflexivity].
  destruct (clobbers a n b); cbn [intact]; auto.
Qed.

Lemma answers_store_at (n : nat) (h : heap) (a v p : Z) :
  answers h p = false -> answers (store_at n h a v) p = false.
Proof. destruct h as [m bl]. apply answers_written. Qed.

Lemma answers_memset_at (h : heap) (a c n p : Z) :
  answers h p = false -> answers (memset_at h a c n) p = false.
Proof. destruct h as [m bl]. apply answers_written. Qed.

(** A write to the eight bytes below a block destroys the allocator's
    record of the block. *)
Lemma store_below_block (h : heap) (q v : Z) :
  q <> 0 -> answers (store_at 8 h (q - 8) v) q = false.
Proof.
  intros Hq. unfold answers, find_block, store_at. cbn [blocks].
  rewrite find_written. apply Z.eqb_neq in Hq. rewrite Hq. cbn [orb].
  destruct (find _ (blocks h)) as [b|] eqn:E; cbn [option_map]; [|reflexivity].
  apply find_some in E as [_ E]. apply Z.eqb_eq in E.
  unfold clobbers, sizeof_ptr. rewrite E.
  destruct (Z.ltb_spec 0 (Z.of_nat 8)); [|cbn in *; lia].
  destruct (Z.ltb_spec (q - 8) q); [|lia].
  destruct (Z.ltb_spec (q - 8) (q - 8 + Z.of_nat 8)); [|cbn in *; lia].
  reflexivity.
Qed.

Lemma realloc_lost (h : heap) (p n : Z) (r : option Z) :
  answers h p = false -> realloc h p n r = None.
Proof. unfold realloc. intros ->. reflexivity. Qed.

Lemma free_lost (h : heap) (p : Z) : answers h p = false -> free h p = None.
Proof. unfold free. intros ->. reflexivity. Qed.

Lemma granted_bounds (q n : Z) :
  granted q n = true -> 0 < q /\ n <= PTRDIFF_MAX /\ q + n <= 2 ^ 64.
Proof.
  unfold granted. intros H. apply andb_prop in H as [H H3].
  apply andb_prop in H as [H1 H2].
  apply Z.ltb_lt in H1. apply Z.leb_le in H2, H3. auto.
Qed.

Lemma granted_nz (q n : Z) : granted q n = true -> (q =? 0) = false.
Proof. intros H. apply granted_bounds in H. apply Z.eqb_neq. lia. Qed.

End Allocator.

(** ** The paths through the operations *)

Section Paths.

Context {hd : header}.

Lemma realloc_stack_lost (s : stack_t) (h : heap) (c : Z) (r : option Z) :
  answers h (stk_items s) = false -> realloc_stack s h c r = None.
Proof. intros H. unfold realloc_stack. rewrite realloc_lost by assumption. reflexivity. Qed.

Lemma realloc_stack_answered (s : stack_t) (h : heap) (c : Z) (r : option Z) :
  answers h (stk_items s) = true ->
  realloc_stack s h c r = Some (reallocated s h c r).
Proof.
  intros H.
  assert (E : exists hq, realloc_stack s h c r = Some hq).
  { unfold realloc_stack, realloc. rewrite H.
    destruct r as [q|]; [destruct (granted q _)|]; cbn [Z.eqb];
      try (destruct (q =? 0)); eauto. }
  destruct E as [hq E]. unfold reallocated. rewrite E. reflexivity.
Qed.

Lemma reallocated_refused (s : stack_t) (h : heap) (c : Z) (r : option Z) :
  grants r (alloc_bytes c) = false -> reallocated s h c r = (h, 0).
Proof.
  intros G. unfold reallocated, realloc_stack, realloc.
  destruct (answers h (stk_items s)); [|reflexivity].
  destruct r as [q|]; [|reflexivity]. cbn [grants] in G. rewrite G. reflexivity.
Qed.

(** The heap that [realloc_stack] leaves when the allocator hands out the
    block at [q]: the new block with the bytes of the old one, then the
    fill, then the two guard words. *)
Lemma reallocated_granted (s : stack_t) (h : heap) (c q : Z) :
  answers h (stk_items s) = true -> granted q (alloc_bytes c) = true ->
  let k := Z.min (block_size h (stk_items s)) (alloc_bytes c) in
  let h1 := mkHeap (fun x => if (q <=? x) && (x <? q + k)
                             then bytes h (x - q + stk_items s) else bytes h x)
                   (mkBlock q (alloc_bytes c) true :: release (stk_items s) (blocks h)) in
  let h2 := memset_at h1 (item_addr q (stk_size s)) FILL_BYTE
              (size_wrap (alloc_bytes c - size_wrap (stk_size s * sizeof_item_t))) in
  let h3 := store_at 8 h2 (right_canary q c) (Z.lxor CANARY q) in
  reallocated s h c (Some q) = (store_at 8 h3 (left_canary q c) (Z.lxor CANARY q), q).
Proof.
  intros A G. pose proof (granted_nz _ _ G) as Hq.
  unfold reallocated, realloc_stack, realloc. rewrite A, G, Hq. reflexivity.
Qed.

Lemma reallocated_address (s : stack_t) (h : heap) (c : Z) (r : option Z) :
  answers h (stk_items s) = true -> grants r (alloc_bytes c) = true ->
  exists q, r = Some q /\ granted q (alloc_bytes c) = true /\
            snd (reallocated s h c r) = q /\ (q =? 0) = false.
Proof.
  intros A G. destruct r as [q|]; [|discriminate]. cbn [grants] in G.
  exists q. rewrite (reallocated_granted s h c q A G). cbn [snd].
  repeat split; try assumption. eapply granted_nz; eassumption.
Qed.

(** The buffer that [realloc_stack] returns is lost to the allocator: the
    left guard word is written over the allocator's record of the block. *)
Lemma realloc_stack_loses (s : stack_t) (h h' : heap) (c q : Z) (r : option Z) :
  realloc_stack s h c r = Some (h', q) -> q <> 0 -> answers h' q = false.
Proof.
  unfold realloc_stack. destruct (realloc _ _ _ _) as [[h1 q1]|]; [|discriminate].
  destruct (Z.eqb_spec q1 0) as [->|N]; intros E; injection E as <- <-;
    [contradiction|].
  intros _. unfold left_canary, sizeof_canary_t. apply store_below_block, N.
Qed.

(** *** pop_stack *)

Lemma pop_stack_invalid (w : world) (error r : option Z) :
  verify_mask (stk w) (bytes (hp w)) <> 0 ->
  pop_stack w error r =
  Some (w, set_error error (verify_mask (stk w) (bytes (hp w))),
        item_of_bits (size_t_of_item POISON)).
Proof.
  intros H. unfold pop_stack. rewrite verify_stack_eq.
  apply Z.eqb_neq in H as H'. rewrite H'. cbn [negb].
  rewrite world_eta, finally_nz by assumption. reflexivity.
Qed.

Lemma pop_stack_empty (w : world) (error r : option Z) :
  header_ok hd ->
  verify_mask (stk w) (bytes (hp w)) = 0 -> stk_size (stk w) = 0 ->
  pop_stack w error r =
  Some (w, set_error error STK_EMPTY_POP, item_of_bits (size_t_of_item POISON)).
Proof.
  intros Hok H H0. unfold pop_stack. rewrite verify_stack_eq, H, H0. cbn [negb Z.eqb].
  rewrite world_eta, finally_nz by apply Hok. reflexivity.
Qed.

Lemma pop_stack_lost (w : world) (error r : option Z) :
  verify_mask (stk w) (bytes (hp w)) = 0 -> stk_size (stk w) <> 0 ->
  shrinkable (stk w) = true -> reachable w = false ->
  pop_stack w error r = None.
Proof.
  intros H H0 Hs Hr. unfold pop_stack. rewrite verify_stack_eq, H. cbn [negb Z.eqb].
  apply Z.eqb_neq in H0. rewrite H0, Hs.
  rewrite realloc_stack_lost by exact Hr. reflexivity.
Qed.


Lemma pop_stack_removes (w : world) (error r : option Z) :
  verify_mask (stk w) (bytes (hp w)) = 0 -> stk_size (stk w) <> 0 ->
  (shrinkable (stk w) = true ->
   reachable w = true /\
   grants r (alloc_bytes (stk_capacity (stk w) / CAP_FACTOR)) = true) ->
  let w' := pop_commit (pop_ready w r) in
  pop_stack w error r =
  Some (w', finally (verify_mask (stk w') (bytes (hp w'))) error,
        item_of_bits (size_t_of_item (pop_top (pop_ready w r)))).
Proof.
  intros H H0 Hr. unfold pop_stack, pop_ready. rewrite verify_stack_eq, H. cbn [negb Z.eqb].
  apply Z.eqb_neq in H0. rewrite H0.
  destruct (shrinkable (stk w)).
  - destruct (Hr eq_refl) as [A G].
    destruct (reallocated_address (stk w) (hp w) _ r A G) as (q & -> & _ & E & Hq).
    rewrite realloc_stack_answered by exact A.
    destruct (reallocated _ _ _ _) as [h' q']. cbn [snd] in E. subst q'. rewrite Hq.
    cbn -[verify_stack hash_stack size_wrap item_addr].
    rewrite hash_stack_eq, verify_stack_eq. reflexivity.
  - cbn -[verify_stack hash_stack size_wrap item_addr].
    rewrite hash_stack_eq, verify_stack_eq. reflexivity.
Qed.

(** *** push_stack *)

Lemma push_stack_invalid (w : world) (item : Z) (error r : option Z) :
  verify_mask (stk w) (bytes (hp w)) <> 0 ->
  push_stack w item error r =
  Some (w, set_error error (verify_mask (stk w) (bytes (hp w)))).
Proof.
  intros H. unfold push_stack. rewrite verify_stack_eq.
  apply Z.eqb_neq in H as H'. rewrite H'. cbn [negb].
  rewrite world_eta, finally_nz by assumption. reflexivity.
Qed.

Lemma push_stack_lost (w : world) (item : Z) (error r : option Z) :
  verify_mask (stk w) (bytes (hp w)) = 0 ->
  expandable (stk w) = true -> reachable w = false ->
  push_stack w item error r = None.
Proof.
  intros H He Hr. unfold push_stack. rewrite verify_stack_eq, H. cbn [negb Z.eqb].
  rewrite He. rewrite realloc_stack_lost by exact Hr. reflexivity.
Qed.


Lemma push_stack_stores (w : world) (item : Z) (error r : option Z) :
  verify_mask (stk w) (bytes (hp w)) = 0 ->
  (expandable (stk w) = true ->
   reachable w = true /\
   grants r (alloc_bytes (size_wrap (stk_capacity (stk w) * CAP_FACTOR))) = true) ->
  let w' := push_commit (push_ready w r) item in
  push_stack w item error r =
  Some (w', finally (verify_mask (stk w') (bytes (hp w'))) error).
Proof.
  intros H Hr. unfold push_stack, push_ready. rewrite verify_stack_eq, H. cbn [negb Z.eqb].
  destruct (expandable (stk w)).
  - destruct (Hr eq_refl) as [A G].
    destruct (reallocated_address (stk w) (hp w) _ r A G) as (q & -> & _ & E & Hq).
    rewrite realloc_stack_answered by exact A.
    destruct (reallocated _ _ _ _) as [h' q']. cbn [snd] in E. subst q'. rewrite Hq.
    cbn -[verify_stack hash_stack size_wrap item_addr].
    rewrite hash_stack_eq, verify_stack_eq. reflexivity.
  - cbn -[verify_stack hash_stack size_wrap item_addr].
    rewrite hash_stack_eq, verify_stack_eq. reflexivity.
Qed.

(** *** construct_stack *)

Lemma construct_stack_cases (w : world) (error r : option Z) :
  header_ok hd ->
  (construct_stack w error r = Some (w, set_error error (verify_empty_stack (stk w)), false) /\
   verify_empty_stack (stk w) <> 0) \/
  (construct_stack w error r = Some (w, set_error error STK_BAD_ALLOC, false) /\
   verify_empty_stack (stk w) = 0 /\ grants r (alloc_bytes INIT_CAP) = false) \/
  (let w' := construct_commit w r in
   let vrf := verify_mask (stk w') (bytes (hp w')) in
   construct_stack w error r = Some (w', finally vrf error, vrf =? 0) /\
   verify_empty_stack (stk w) = 0 /\ grants r (alloc_bytes INIT_CAP) = true).
Proof.
  intros Hok. unfold construct_stack, construct_commit.
  destruct (Z.eq_dec (verify_empty_stack (stk w)) 0) as [E|E].
  - rewrite E. cbn [Z.eqb negb].
    assert (A : answers (hp w) (stk_items (stk w)) = true).
    { rewrite (verify_empty_zero _ Hok E). reflexivity. }
    rewrite realloc_stack_answered by exact A.
    destruct (grants r (alloc_bytes INIT_CAP)) eqn:G.
    + right; right.
      destruct (reallocated_address (stk w) (hp w) _ r A G) as (q & -> & _ & Eq & Hq).
      destruct (reallocated _ _ _ _) as [h' q']. cbn [snd] in Eq. subst q'. rewrite Hq.
      cbn -[verify_stack hash_stack].
      rewrite hash_stack_eq, verify_stack_eq. auto.
    + right; left. rewrite reallocated_refused by assumption. cbn [Z.eqb].
      rewrite world_eta, finally_nz by apply Hok. auto.
  - left. apply Z.eqb_neq in E as E'. rewrite E'. cbn [negb].
    rewrite finally_nz by assumption. auto.
Qed.

End Paths.

(** ** Element values and their conversions *)

Section Items.

Context {hd : header}.
Hypothesis Hok : header_ok hd.

Lemma item_bits_range : 8 <= item_bits <= 64.
Proof. destruct Hok. unfold item_bits. lia. Qed.

Lemma pow_item_bits : 2 ^ item_bits = 2 * 2 ^ (item_bits - 1).
Proof.
  pose proof item_bits_range.
  rewrite <- Z.pow_succ_r by lia. f_equal. lia.
Qed.

Lemma item_of_bits_wrap (u : Z) : item_of_bits (size_wrap u) = item_of_bits u.
Proof.
  pose proof item_bits_range as Hb.
  unfold item_of_bits, size_wrap.
  assert (E : (u mod 2 ^ 64) mod 2 ^ item_bits = u mod 2 ^ item_bits).
  { apply Z.mod_mod_divide.
    exists (2 ^ (64 - item_bits)). rewrite <- Z.pow_add_r by lia. f_equal. lia. }
  rewrite E. reflexivity.
Qed.

Lemma representable_item_of_bits (u : Z) : representable (item_of_bits u).
Proof.
  pose proof item_bits_range as Hb. pose proof pow_item_bits as Hp.
  unfold representable, item_of_bits.
  assert (0 < 2 ^ (item_bits - 1)) by (apply Z.pow_pos_nonneg; lia).
  assert (0 < 2 ^ item_bits) by (apply Z.pow_pos_nonneg; lia).
  assert (0 <= u mod 2 ^ item_bits < 2 ^ item_bits)
    by (apply Z.mod_pos_bound; assumption).
  cbv zeta. destruct (Z.ltb_spec (u mod 2 ^ item_bits) (2 ^ (item_bits - 1))); lia.
Qed.

Lemma item_of_bits_representable (v : Z) : representable v -> item_of_bits v = v.
Proof.
  pose proof item_bits_range as Hb. pose proof pow_item_bits as Hp.
  unfold representable, item_of_bits. intros Hv.
  assert (0 < 2 ^ (item_bits - 1)) by (apply Z.pow_pos_nonneg; lia).
  cbv zeta. destruct (Z_lt_le_dec v 0).
  - assert (E : v mod 2 ^ item_bits = v + 2 ^ item_bits).
    { symmetry. apply (Z.mod_unique v _ (-1)); lia. }
    rewrite E. destruct (Z.ltb_spec (v + 2 ^ item_bits) (2 ^ (item_bits - 1))); lia.
  - rewrite Z.mod_small by lia.
    destruct (Z.ltb_spec v (2 ^ (item_bits - 1))); lia.
Qed.

Lemma item_of_bits_mod (u : Z) : item_of_bits (u mod 2 ^ item_bits) = item_of_bits u.
Proof.
  unfold item_of_bits. rewrite Z.mod_mod; [reflexivity|].
  pose proof item_bits_range. apply Z.pow_nonzero; lia.
Qed.

(** An element survives the detour through [size_t] that [pop_stack] makes. *)
Lemma item_round_trip (v : Z) :
  representable v -> item_of_bits (size_t_of_item v) = v.
Proof.
  intros Hv. unfold size_t_of_item. rewrite item_of_bits_wrap.
  apply item_of_bits_representable, Hv.
Qed.

Lemma representable_POISON : representable POISON.
Proof. apply representable_item_of_bits. Qed.

Lemma POISON_round_trip : item_of_bits (size_t_of_item POISON) = POISON.
Proof. apply item_round_trip, representable_POISON. Qed.

Lemma map_item_of_bits (l : list Z) :
  Forall representable l -> map item_of_bits l = l.
Proof.
  induction 1 as [|x l Hx _ IH]; [reflexivity|].
  cbn [map]. rewrite IH, item_of_bits_representable by assumption. reflexivity.
Qed.

End Items.

(** ** The flat memory *)

Section Memory.

Lemma store_other (n : nat) (m : mem) (a v x : Z) :
  x < a \/ a + Z.of_nat n <= x -> store n m a v x = m x.
Proof.
  revert m a v. induction n as [|n IH]; intros m a v H; cbn [store]; [reflexivity|].
  rewrite IH by lia. destruct (Z.eqb_spec x a); [lia|reflexivity].
Qed.

Lemma load_shift (n : nat) (m m' : mem) (a a' : Z) :
  (forall j, 0 <= j < Z.of_nat n -> m' (a' + j) = m (a + j)) ->
  load n m' a' = load n m a.
Proof.
  revert a a'. induction n as [|n IH]; intros a a' H; cbn [load]; [reflexivity|].
  unfold byte_at. rewrite <- (Z.add_0_r a'), <- (Z.add_0_r a) at 1.
  rewrite (H 0) by lia. rewrite !Z.add_0_r. f_equal. f_equal.
  apply IH. intros j Hj. rewrite <- !Z.add_assoc. apply H. lia.
Qed.

Lemma load_ext (n : nat) (m m' : mem) (a : Z) :
  (forall x, a <= x < a + Z.of_nat n -> m' x = m x) ->
  load n m' a = load n m a.
Proof. intros H. apply load_shift. intros j Hj. apply H. lia. Qed.

Lemma load_store_other (n k : nat) (m : mem) (a b v : Z) :
  a + Z.of_nat n <= b \/ b + Z.of_nat k <= a ->
  load n (store k m b v) a = load n m a.
Proof. intros H. apply load_ext. intros x Hx. apply store_other. lia. Qed.

Lemma load_store_same (n : nat) (m : mem) (a v : Z) :
  load n (store n m a v) a = v mod 256 ^ Z.of_nat n.
Proof.
  revert m a v. induction n as [|n IH]; intros m a v; cbn [load store].
  - rewrite Z.mod_1_r. reflexivity.
  - rewrite IH. unfold byte_at. rewrite store_other by lia.
    rewrite Z.eqb_refl, Z.mod_mod by lia.
    rewrite Nat2Z.inj_succ, Z.pow_succ_r by lia.
    assert (0 < 256 ^ Z.of_nat n) by (apply Z.pow_pos_nonneg; lia).
    rewrite Z.rem_mul_r by lia. reflexivity.
Qed.

Lemma load_range (n : nat) (m : mem) (a : Z) :
  0 <= load n m a < 256 ^ Z.of_nat n.
Proof.
  revert a. induction n as [|n IH]; intros a; cbn [load]; [cbn; lia|].
  rewrite Nat2Z.inj_succ, Z.pow_succ_r by lia.
  specialize (IH (a + 1)). unfold byte_at.
  pose proof (Z.mod_pos_bound (m a) 256 ltac:(lia)). lia.
Qed.

Lemma load_memset_other (n : nat) (m : mem) (a b c k : Z) :
  a + Z.of_nat n <= b \/ b + k <= a ->
  load n (memset m b c k) a = load n m a.
Proof.
  intros H. apply load_ext. intros x Hx. unfold memset.
  destruct (Z.leb_spec b x); destruct (Z.ltb_spec x (b + k)); cbn [andb];
    try reflexivity; lia.
Qed.

Lemma lxor_range (a b : Z) :
  0 <= a < 2 ^ 64 -> 0 <= b < 2 ^ 64 -> 0 <= Z.lxor a b < 2 ^ 64.
Proof.
  intros Ha Hb.
  assert (Hn : 0 <= Z.lxor a b) by (apply Z.lxor_nonneg; lia).
  split; [assumption|].
  destruct (Z.eq_dec (Z.lxor a b) 0) as [->|Hz]; [lia|].
  apply Z.log2_lt_pow2; [lia|].
  pose proof (Z.log2_lxor a b ltac:(lia) ltac:(lia)).
  assert (Z.log2 a < 64).
  { destruct (Z.eq_dec a 0) as [->|]; [cbn; lia|]. apply Z.log2_lt_pow2; lia. }
  assert (Z.log2 b < 64).
  { destruct (Z.eq_dec b 0) as [->|]; [cbn; lia|]. apply Z.log2_lt_pow2; lia. }
  lia.
Qed.

Lemma load_poke (n : nat) (m : mem) (p a b : Z) :
  p <= a < p + Z.of_nat n -> b mod 256 <> byte_at m a ->
  load n (fun x => if x =? a then b else m x) p <> load n m p.
Proof.
  revert p. induction n as [|n IH]; intros p Ha Hb; [cbn in Ha; lia|].
  cbn [load]. rewrite Nat2Z.inj_succ in Ha.
  pose proof (Z.mod_pos_bound b 256 ltac:(lia)).
  pose proof (Z.mod_pos_bound (m p) 256 ltac:(lia)).
  destruct (Z.eq_dec p a) as [->|Hne].
  - unfold byte_at in *. rewrite Z.eqb_refl. lia.
  - specialize (IH (p + 1) ltac:(lia) Hb). unfold byte_at at 1 2.
    destruct (Z.eqb_spec p a); [contradiction|]. lia.
Qed.

Lemma load_constant (n : nat) (m : mem) (a c : Z) :
  0 <= c < 256 ->
  (forall j, 0 <= j < Z.of_nat n -> m (a + j) = c) ->
  255 * load n m a = c * (256 ^ Z.of_nat n - 1).
Proof.
  intros Hc. revert a. induction n as [|n IH]; intros a H; [cbn; lia|].
  cbn [load]. rewrite Nat2Z.inj_succ in *. rewrite Z.pow_succ_r by lia.
  unfold byte_at. rewrite <- (Z.add_0_r a) at 1. rewrite (H 0) by lia.
  rewrite (Z.mod_small c) by lia.
  assert (E : 255 * load n m (a + 1) = c * (256 ^ Z.of_nat n - 1)).
  { apply IH. intros j Hj. rewrite <- Z.add_assoc. apply H. lia. }
  lia.
Qed.

End Memory.

(** ** The layout of the buffer *)

Section Buffer.

Context {hd : header}.
Hypothesis Hok : header_ok hd.

Lemma sizeof_item_nat : Z.of_nat (Z.to_nat sizeof_item_t) = sizeof_item_t.
Proof. destruct Hok. apply Z2Nat.id. lia. Qed.

Lemma pow_256_item : 256 ^ Z.of_nat (Z.to_nat sizeof_item_t) = 2 ^ item_bits.
Proof.
  rewrite sizeof_item_nat. unfold item_bits. destruct Hok.
  rewrite Z.pow_mul_r by lia. reflexivity.
Qed.

Lemma alloc_bytes_exact (c : Z) :
  0 <= c * sizeof_item_t <= 2 ^ 64 - 25 ->
  alloc_bytes c = c * sizeof_item_t + (8 - (c * sizeof_item_t) mod 8) + 16.
Proof.
  intros H. unfold alloc_bytes, size_wrap, sizeof_ptr, sizeof_canary_t.
  set (X := c * sizeof_item_t) in *.
  rewrite (Z.mod_small X) by lia.
  pose proof (Z.mod_pos_bound X 8 ltac:(lia)).
  rewrite (Z.mod_small (8 - X mod 8)) by lia.
  rewrite (Z.mod_small (8 - X mod 8 + 2 * 8)) by lia.
  rewrite Z.mod_small by lia. lia.
Qed.

Lemma alloc_bytes_init : alloc_bytes INIT_CAP = INIT_CAP * sizeof_item_t + 24.
Proof.
  assert (Hw : 1 <= sizeof_item_t <= 8) by apply Hok.
  rewrite alloc_bytes_exact by (unfold INIT_CAP; lia).
  unfold INIT_CAP. rewrite (Z.mul_comm 8), Z.mod_mul by lia. lia.
Qed.

Lemma right_canary_init (q : Z) :
  right_canary q INIT_CAP = q + INIT_CAP * sizeof_item_t + 8.
Proof.
  assert (Hw : 1 <= sizeof_item_t <= 8) by apply Hok.
  unfold right_canary, size_wrap, sizeof_ptr, INIT_CAP.
  rewrite (Z.mod_small (sizeof_item_t * 8)) by lia.
  rewrite Z.mod_mul by lia. lia.
Qed.

Lemma item_addr_exact (items i : Z) :
  0 <= items + i * sizeof_item_t < 2 ^ 64 ->
  item_addr items i = items + i * sizeof_item_t.
Proof. intros H. unfold item_addr, size_wrap. apply Z.mod_small, H. Qed.

(** The slots of a buffer of the initial capacity that lies inside the
    address space are where the plain sum says. *)
Lemma item_addr_buffer (q i : Z) :
  0 < q -> q + alloc_bytes INIT_CAP <= 2 ^ 64 -> 0 <= i <= INIT_CAP ->
  item_addr q i = q + i * sizeof_item_t.
Proof.
  intros Hq He Hi. assert (Hw : 1 <= sizeof_item_t <= 8) by apply Hok.
  rewrite alloc_bytes_init in He. unfold INIT_CAP in *.
  apply item_addr_exact. nia.
Qed.

Lemma load_item_store_item (m : mem) (a v : Z) :
  load_item (store_item m a v) a = item_of_bits v.
Proof.
  unfold load_item, store_item. rewrite load_store_same, pow_256_item.
  apply item_of_bits_mod, Hok.
Qed.

(** Writing the element at index [n] leaves the guard words and the other
    elements alone. *)
Lemma store_at_index (m : mem) (q n v : Z) :
  0 < q -> q + alloc_bytes INIT_CAP <= 2 ^ 64 -> 0 <= n < INIT_CAP ->
  let m' := store_item m (item_addr q n) v in
  load 8 m' (left_canary q INIT_CAP) = load 8 m (left_canary q INIT_CAP) /\
  load 8 m' (right_canary q INIT_CAP) = load 8 m (right_canary q INIT_CAP) /\
  (forall i, 0 <= i < INIT_CAP -> i <> n ->
     load_item m' (item_addr q i) = load_item m (item_addr q i)) /\
  load_item m' (item_addr q n) = item_of_bits v.
Proof.
  intros Hq He Hn. assert (Hw : 1 <= sizeof_item_t <= 8) by apply Hok.
  pose proof sizeof_item_nat as Hsz. cbv zeta.
  rewrite (item_addr_buffer q n) by lia. rewrite right_canary_init.
  unfold left_canary, sizeof_canary_t, INIT_CAP in *.
  assert (Hn' : (n + 1) * sizeof_item_t <= 8 * sizeof_item_t)
    by (apply Z.mul_le_mono_nonneg_r; lia).
  assert (0 <= n * sizeof_item_t) by (apply Z.mul_nonneg_nonneg; lia).
  split; [|split; [|split]].
  - apply load_store_other. rewrite Hsz. change (Z.of_nat 8) with 8. lia.
  - apply load_store_other. rewrite Hsz. change (Z.of_nat 8) with 8. lia.
  - intros i Hi Hne. rewrite (item_addr_buffer q i) by (unfold INIT_CAP; lia).
    unfold load_item, store_item. f_equal. apply load_store_other. rewrite Hsz.
    destruct (Z_lt_le_dec i n).
    + left. assert ((i + 1) * sizeof_item_t <= n * sizeof_item_t)
        by (apply Z.mul_le_mono_nonneg_r; lia). lia.
    + right. assert ((n + 1) * sizeof_item_t <= i * sizeof_item_t)
        by (apply Z.mul_le_mono_nonneg_r; lia). lia.
  - apply load_item_store_item.
Qed.

Lemma load_poison (m : mem) (a : Z) :
  (forall j, 0 <= j < sizeof_item_t -> m (a + j) = FILL_BYTE mod 256) ->
  load_item m a = POISON.
Proof.
  intros H. unfold POISON, get_poison, load_item. f_equal.
  apply load_shift. intros j Hj. rewrite sizeof_item_nat in Hj.
  rewrite H by assumption. unfold memset.
  destruct (Z.leb_spec 0 (0 + j)); [|lia].
  destruct (Z.ltb_spec (0 + j) (0 + sizeof_item_t)); [|lia]. reflexivity.
Qed.

Lemma holds_valid (w : world) (l : list Z) : holds w l -> valid w.
Proof.
  intros [B Hh]. destruct B.
  apply verify_mask_pass; try assumption.
  rewrite CAP_MAX_val, bo_capacity0. unfold INIT_CAP. lia.
Qed.

Lemma holds_lost (w : world) (l : list Z) : holds w l -> reachable w = false.
Proof. intros [B _]. apply B. Qed.

Lemma holds_not_shrinkable (w : world) (l : list Z) :
  holds w l -> shrinkable (stk w) = false.
Proof.
  intros [B _]. unfold shrinkable. rewrite (bo_capacity _ _ _ B).
  rewrite Z.ltb_irrefl. apply andb_false_r.
Qed.

Lemma holds_contents (w : world) (l : list Z) : holds w l -> contents w = l.
Proof.
  intros [B _]. unfold contents, slot. rewrite (bo_size _ _ _ B), Nat2Z.id.
  assert (E : forall n (f : nat -> Z) (l : list Z),
            length l = n -> (forall i, (i < n)%nat -> f i = nth i l 0) ->
            map f (seq 0 n) = l).
  { clear. intros n f l. revert f n.
    induction l as [|x l IH]; intros f n <- H; [reflexivity|].
    cbn [length seq map]. rewrite (H 0%nat) by (cbn; lia). cbn [nth]. f_equal.
    rewrite <- seq_shift, map_map. apply IH; [reflexivity|].
    intros i Hi. apply (H (S i)). cbn. lia. }
  apply E; [reflexivity|]. apply (bo_elements _ _ _ B).
Qed.

Lemma holds_representable (w : world) (l : list Z) :
  holds w l -> Forall representable l.
Proof.
  intros [B _]. apply Forall_forall. intros x Hx.
  destruct (In_nth l x 0 Hx) as (i & Hlen & <-).
  rewrite <- (bo_elements _ _ _ B i Hlen). apply representable_item_of_bits, Hok.
Qed.

Lemma holds_nonempty (w : world) (l : list Z) :
  holds w l -> stk_size (stk w) <> 0 -> exists l' x, l = l' ++ [x].
Proof.
  intros [B _] Hn. pose proof (bo_size _ _ _ B) as Hs.
  destruct l as [|y l] using rev_ind; [cbn in Hs; contradiction|].
  exists l, y. reflexivity.
Qed.

End Buffer.

(** ** The three operations keep the stack in order *)

Section Transitions.

Context {hd : header}.
Hypothesis Hok : header_ok hd.

(** Storing [x] on top of a buffer that has room. *)
Lemma push_commit_holds (s : stack_t) (h : heap) (l : list Z) (x : Z) :
  buffer_ok s h l -> stk_size s < stk_capacity s ->
  holds (push_commit (s, h) x) (l ++ [item_of_bits x]).
Proof.
  intros B Hlt. destruct B. rewrite bo_capacity0 in *.
  assert (Hs0 : 0 <= stk_size s) by lia.
  destruct (store_at_index Hok (bytes h) (stk_items s) (stk_size s) x)
    as (Sl & Sr & Si & Sn); try assumption; [lia|].
  assert (Hw : size_wrap (stk_size s + 1) = stk_size s + 1).
  { apply Z.mod_small. unfold INIT_CAP in *. lia. }
  unfold holds, push_commit. cbn [stk hp]. split; [|reflexivity].
  unfold store_item_at, store_at. unfold store_item in Sl, Sr, Si, Sn.
  constructor;
    cbn [set_hash set_size stk_capacity stk_size stk_items stk_left_canary
         stk_right_canary bytes]; rewrite ?bo_capacity0, ?Hw.
  - reflexivity.
  - rewrite length_app. cbn [length]. lia.
  - lia.
  - assumption.
  - assumption.
  - assumption.
  - assumption.
  - apply (answers_store_at _ h). assumption.
  - rewrite Sl. assumption.
  - rewrite Sr. assumption.
  - intros i Hlen. rewrite length_app in Hlen. cbn [length] in Hlen.
    destruct (Nat.eq_dec i (length l)) as [->|Hne].
    + rewrite <- bo_size0, Sn, nth_middle. reflexivity.
    + rewrite Si by (unfold INIT_CAP in *; lia).
      rewrite app_nth1 by lia. apply bo_elements0. lia.
Qed.

(** Removing the top of a buffer that holds [l ++ [x]]. *)
Lemma pop_commit_holds (s : stack_t) (h : heap) (l : list Z) (x : Z) :
  buffer_ok s h (l ++ [x]) ->
  holds (pop_commit (s, h)) l /\ pop_top (s, h) = x.
Proof.
  intros B. destruct B. rewrite bo_capacity0 in *.
  rewrite length_app in bo_size0, bo_elements0. cbn [length] in bo_size0, bo_elements0.
  assert (Hw : size_wrap (stk_size s - 1) = stk_size s - 1).
  { apply Z.mod_small. unfold INIT_CAP in *. lia. }
  destruct (store_at_index Hok (bytes h) (stk_items s) (stk_size s - 1) POISON)
    as (Sl & Sr & Si & Sn); try assumption; [lia|].
  split.
  - unfold holds, pop_commit. cbn [stk hp]. split; [|reflexivity].
    unfold store_item_at, store_at. unfold store_item in Sl, Sr, Si, Sn.
    constructor;
      cbn [set_hash set_size stk_capacity stk_size stk_items stk_left_canary
           stk_right_canary bytes]; rewrite ?bo_capacity0, ?Hw.
    + reflexivity.
    + lia.
    + lia.
    + assumption.
    + assumption.
    + assumption.
    + assumption.
    + apply (answers_store_at _ h). assumption.
    + rewrite Sl. assumption.
    + rewrite Sr. assumption.
    + intros i Hlen. rewrite Si by (unfold INIT_CAP in *; lia).
      rewrite bo_elements0 by lia. apply app_nth1, Hlen.
  - unfold pop_top. rewrite Hw.
    replace (stk_size s - 1) with (Z.of_nat (length l)) by lia.
    rewrite bo_elements0 by lia. apply nth_middle.
Qed.

(** Neither changes the buffer, the capacity or the guard words of the
    object. *)
Lemma push_commit_fields (sh : stack_t * heap) (x : Z) :
  stk_items (stk (push_commit sh x)) = stk_items (fst sh) /\
  stk_capacity (stk (push_commit sh x)) = stk_capacity (fst sh) /\
  stk_size (stk (push_commit sh x)) = size_wrap (stk_size (fst sh) + 1) /\
  stk_left_canary (stk (push_commit sh x)) = stk_left_canary (fst sh) /\
  stk_right_canary (stk (push_commit sh x)) = stk_right_canary (fst sh).
Proof. destruct sh as [s h]. repeat split. Qed.

Lemma pop_commit_fields (sh : stack_t * heap) :
  stk_items (stk (pop_commit sh)) = stk_items (fst sh) /\
  stk_capacity (stk (pop_commit sh)) = stk_capacity (fst sh) /\
  stk_size (stk (pop_commit sh)) = size_wrap (stk_size (fst sh) - 1) /\
  stk_left_canary (stk (pop_commit sh)) = stk_left_canary (fst sh) /\
  stk_right_canary (stk (pop_commit sh)) = stk_right_canary (fst sh).
Proof. destruct sh as [s h]. repeat split. Qed.

(** The buffer that [construct_stack] sets up: every byte of the block is
    the fill byte, then the two guard words are written. *)
Lemma construct_holds (w : world) (q : Z) :
  verify_empty_stack (stk w) = 0 -> granted q (alloc_bytes INIT_CAP) = true ->
  let w' := construct_commit w (Some q) in
  holds w' [] /\ poisoned w' /\ stk_items (stk w') = q /\
  stk_size (stk w') = 0 /\ stk_capacity (stk w') = INIT_CAP.
Proof.
  intros Hz G. apply (verify_empty_zero _ Hok) in Hz.
  assert (A : answers (hp w) (stk_items (stk w)) = true) by (rewrite Hz; reflexivity).
  destruct (granted_bounds _ _ G) as (Hq & _ & He).
  assert (Hw : 1 <= sizeof_item_t <= 8) by apply Hok.
  pose proof (alloc_bytes_init Hok) as Ea.
  assert (Hx : 0 <= Z.lxor CANARY q < 2 ^ 64).
  { apply lxor_range; [apply Hok|]. unfold INIT_CAP in *. lia. }
  cbv zeta. unfold construct_commit.
  rewrite (reallocated_granted (stk w) (hp w) INIT_CAP q A G). cbv zeta.
  rewrite Hz. cbn [stk_size stk_items zero_stack Z.mul].
  change (size_wrap 0) with 0. rewrite Z.sub_0_r.
  assert (Eb : size_wrap (alloc_bytes INIT_CAP) = alloc_bytes INIT_CAP).
  { unfold size_wrap. apply Z.mod_small. unfold INIT_CAP in *. lia. }
  rewrite Eb, (item_addr_buffer Hok q 0) by (try assumption; unfold INIT_CAP; lia).
  rewrite Z.mul_0_l, Z.add_0_r.
  set (h1 := mkHeap _ _). set (h2 := memset_at h1 q FILL_BYTE _).
  set (h3 := store_at 8 h2 _ _). set (h4 := store_at 8 h3 _ _).
  assert (Hb4 : bytes h4 = store 8 (store 8 (memset (bytes h1) q FILL_BYTE
                                               (alloc_bytes INIT_CAP))
                                      (right_canary q INIT_CAP) (Z.lxor CANARY q))
                             (left_canary q INIT_CAP) (Z.lxor CANARY q))
    by reflexivity.
  assert (Hslot : forall i, 0 <= i < INIT_CAP ->
            load_item (bytes h4) (item_addr q i) = POISON).
  { intros i Hi. rewrite (item_addr_buffer Hok q i) by lia. rewrite Hb4.
    assert (Hi1 : (i + 1) * sizeof_item_t <= INIT_CAP * sizeof_item_t)
      by (apply Z.mul_le_mono_nonneg_r; lia).
    assert (Hi0 : 0 <= i * sizeof_item_t) by (apply Z.mul_nonneg_nonneg; lia).
    apply (load_poison Hok). intros j Hj. rewrite (right_canary_init Hok).
    unfold left_canary, sizeof_canary_t.
    rewrite !store_other by (change (Z.of_nat 8) with 8; lia).
    unfold memset.
    destruct (Z.leb_spec q (q + i * sizeof_item_t + j)); [|lia].
    destruct (Z.ltb_spec (q + i * sizeof_item_t + j) (q + alloc_bytes INIT_CAP)); [|lia].
    reflexivity. }
  split; [|split; [|repeat split]].
  - split; [|reflexivity].
    constructor;
      cbn [stk hp set_hash set_right_canary set_left_canary set_size set_items
           set_capacity stk_capacity stk_size stk_items stk_left_canary
           stk_right_canary length]; try reflexivity; try assumption.
    + unfold INIT_CAP. lia.
    + subst h4. unfold left_canary, sizeof_canary_t. apply store_below_block. lia.
    + rewrite Hb4, load_store_same. change (256 ^ Z.of_nat 8) with (2 ^ 64).
      apply Z.mod_small, Hx.
    + rewrite Hb4, (right_canary_init Hok). unfold left_canary, sizeof_canary_t.
      rewrite load_store_other by (change (Z.of_nat 8) with 8; unfold INIT_CAP; lia).
      rewrite load_store_same. change (256 ^ Z.of_nat 8) with (2 ^ 64).
      apply Z.mod_small, Hx.
    + intros i Hi. cbn in Hi. lia.
  - unfold poisoned, slot.
    cbn [stk hp set_hash set_right_canary set_left_canary set_size set_items
         set_capacity stk_capacity stk_size stk_items].
    exact Hslot.
Qed.

End Transitions.

(** ** Live stacks *)

Section Live.

Context {hd : header}.
Hypothesis Hok : header_ok hd.

(** On a stack that is in order, a push stores its element unless the
    stack is full; the push on a full stack asks the allocator for a larger
    buffer, and that call does not return. *)
Lemma push_stack_holds (w : world) (l : list Z) (x : Z) (error r : option Z) :
  holds w l ->
  push_stack w x error r =
  if expandable (stk w) then None
  else Some (push_commit (stk w, hp w) x, error).
Proof.
  intros H. pose proof (holds_valid _ _ H) as V. unfold valid in V.
  destruct (expandable (stk w)) eqn:He.
  - apply push_stack_lost; try assumption. eapply holds_lost; eassumption.
  - pose proof (push_stack_stores w x error r V) as E.
    unfold push_ready in E. rewrite He in E. cbv zeta in E.
    rewrite E by discriminate.
    assert (H' : holds (push_commit (stk w, hp w) x) (l ++ [item_of_bits x])).
    { apply push_commit_holds; [assumption|apply H|].
      destruct H as [B _]. pose proof (bo_room _ _ _ B).
      unfold expandable in He. apply Z.eqb_neq in He. lia. }
    apply holds_valid in H'. unfold valid in H'. rewrite H'. reflexivity.
Qed.

(** A pop removes the top element unless the stack is empty; it never asks
    the allocator for a smaller buffer, because the capacity is the initial
    one. *)
Lemma pop_stack_holds (w : world) (l : list Z) (error r : option Z) :
  holds w l ->
  pop_stack w error r =
  Some (if stk_size (stk w) =? 0 then (w, set_error error STK_EMPTY_POP, POISON)
        else (pop_commit (stk w, hp w), error, pop_top (stk w, hp w))).
Proof.
  intros H. pose proof (holds_valid _ _ H) as V. unfold valid in V.
  destruct (Z.eqb_spec (stk_size (stk w)) 0) as [E0|Hn].
  - rewrite pop_stack_empty, (POISON_round_trip Hok) by assumption. reflexivity.
  - pose proof (holds_not_shrinkable _ _ H) as Hs.
    pose proof (pop_stack_removes w error r V Hn) as E.
    unfold pop_ready in E. rewrite Hs in E. cbv zeta in E.
    rewrite E by discriminate.
    destruct (holds_nonempty _ _ H Hn) as (l' & y & ->).
    pose proof (holds_representable Hok _ _ H) as Hrep.
    destruct H as [B _]. destruct (pop_commit_holds Hok _ _ _ _ B) as [H' Et].
    apply Forall_app in Hrep as [_ Hrep]. apply Forall_inv in Hrep.
    apply holds_valid in H'. unfold valid in H'. rewrite H'.
    rewrite Et, (item_round_trip Hok) by assumption. reflexivity.
Qed.

Lemma push_holds (w : world) (l : list Z) (x : Z) :
  holds w l -> expandable (stk w) = false ->
  holds (push_commit (stk w, hp w) x) (l ++ [item_of_bits x]).
Proof.
  intros H He. apply push_commit_holds; [assumption|apply H|].
  destruct H as [B _]. pose proof (bo_room _ _ _ B).
  unfold expandable in He. apply Z.eqb_neq in He. lia.
Qed.

Lemma pop_holds (w : world) (l : list Z) (x : Z) :
  holds w (l ++ [x]) ->
  holds (pop_commit (stk w, hp w)) l /\ pop_top (stk w, hp w) = x.
Proof. intros [B _]. apply pop_commit_holds; assumption. Qed.

Lemma step_holds (w w' : world) (o : op) :
  (exists l, holds w l) -> step w o = Some w' -> exists l, holds w' l.
Proof.
  intros [l H] E. destruct o as [item r|r]; cbn [step] in E.
  - rewrite (push_stack_holds w l item None r H) in E.
    destruct (expandable (stk w)) eqn:He; [discriminate|]. injection E as <-.
    eexists. apply push_holds; eassumption.
  - rewrite (pop_stack_holds w l None r H) in E.
    destruct (Z.eqb_spec (stk_size (stk w)) 0) as [E0|Hn]; injection E as <-.
    + exists l. assumption.
    + destruct (holds_nonempty _ _ H Hn) as (l' & y & ->).
      exists l'. eapply pop_holds; eassumption.
Qed.

Lemma run_holds (ops : list op) (w w' : world) :
  (exists l, holds w l) -> run w ops = Some w' -> exists l, holds w' l.
Proof.
  revert w. induction ops as [|o ops IH]; intros w H E; cbn [run] in E.
  - injection E as <-. assumption.
  - destruct (step w o) as [w1|] eqn:E1; [|discriminate].
    eapply IH; [|eassumption]. eapply step_holds; eassumption.
Qed.

Lemma construct_stack_holds (w w1 : world) (error r e : option Z) :
  construct_stack w error r = Some (w1, e, true) -> holds w1 [].
Proof.
  intros E.
  destruct (construct_stack_cases w error r Hok) as [[E' _]|[[E' _]|[E' [Hz G]]]];
    rewrite E' in E; try discriminate.
  injection E as <- _ _. destruct r as [q|]; [|discriminate]. cbn [grants] in G.
  apply (construct_holds Hok w q Hz G).
Qed.

Lemma live_holds (w : world) : live w -> exists l, holds w l.
Proof.
  intros (w0 & error & r & w1 & e & ops & Ec & Er).
  apply construct_stack_holds in Ec.
  eapply run_holds; [|eassumption]. exists []. assumption.
Qed.

Lemma live_valid (w : world) : live w -> valid w.
Proof. intros H. destruct (live_holds w H) as [l Hl]. eapply holds_valid; eassumption. Qed.

Lemma run_app (ops ops' : list op) (w w' : world) :
  run w ops = Some w' -> run w (ops ++ ops') = run w' ops'.
Proof.
  revert w. induction ops as [|o ops IH]; intros w E; cbn [run app] in *.
  - injection E as <-. reflexivity.
  - destruct (step w o) as [w1|]; [|discriminate]. apply IH, E.
Qed.

Lemma live_run (w w' : world) (ops : list op) :
  live w -> run w ops = Some w' -> live w'.
Proof.
  intros (w0 & error & r & w1 & e & ops0 & Ec & Er) E.
  exists w0, error, r, w1, e, (ops0 ++ ops). split; [assumption|].
  rewrite (run_app _ _ _ _ Er). exact E.
Qed.

Lemma live_step (w w' : world) (o : op) : live w -> step w o = Some w' -> live w'.
Proof.
  intros L E. apply (live_run w w' [o] L). cbn [run]. rewrite E. reflexivity.
Qed.

Lemma live_constructed (w w1 : world) (error r e : option Z) :
  construct_stack w error r = Some (w1, e, true) -> live w1.
Proof. intros E. exists w, error, r, w1, e, []. split; [assumption|reflexivity]. Qed.

Lemma checked_error (err : Z) :
  err <> 0 -> match set_error (Some 0) err with Some 0 => true | _ => false end = false.
Proof. intros H. cbn. destruct err; [contradiction|reflexivity..]. Qed.

Lemma step_push_holds (w : world) (l : list Z) (x : Z) (r : option Z) :
  holds w l ->
  step w (Push x r) =
  if expandable (stk w) then None else Some (push_commit (stk w, hp w) x).
Proof.
  intros H. cbn [step]. rewrite (push_stack_holds w l x None r H).
  destruct (expandable (stk w)); reflexivity.
Qed.

Lemma step_pop_holds (w : world) (l : list Z) (r : option Z) :
  holds w l ->
  step w (Pop r) =
  Some (if stk_size (stk w) =? 0 then w else pop_commit (stk w, hp w)).
Proof.
  intros H. cbn [step]. rewrite (pop_stack_holds w l None r H).
  destruct (stk_size (stk w) =? 0); reflexivity.
Qed.

Lemma push_checked_holds (w : world) (l : list Z) (x : Z) (r : option Z) :
  holds w l ->
  push_checked w x r =
  if expandable (stk w) then None else Some (push_commit (stk w, hp w) x, true).
Proof.
  intros H. unfold push_checked. rewrite (push_stack_holds w l x (Some 0) r H).
  destruct (expandable (stk w)); reflexivity.
Qed.

Lemma pop_checked_holds (w : world) (l : list Z) (r : option Z) :
  holds w l ->
  pop_checked w r =
  Some (if stk_size (stk w) =? 0 then (w, false, POISON)
        else (pop_commit (stk w, hp w), true, pop_top (stk w, hp w))).
Proof.
  intros H. unfold pop_checked. rewrite (pop_stack_holds w l (Some 0) r H).
  destruct (stk_size (stk w) =? 0); [|reflexivity].
  rewrite checked_error by apply Hok. reflexivity.
Qed.

Lemma push_all_holds (xs : list (Z * option Z)) (w w' : world) (ok : bool)
      (l : list Z) :
  holds w l -> push_all w xs = Some (w', ok) ->
  ok = true /\ holds w' (l ++ map item_of_bits (map fst xs)).
Proof.
  revert w l ok. induction xs as [|[x r] xs IH]; intros w l ok H E; cbn [push_all] in E.
  - injection E as <- <-. cbn [map]. rewrite app_nil_r. split; [reflexivity|assumption].
  - rewrite (push_checked_holds w l x r H) in E.
    destruct (expandable (stk w)) eqn:He; [discriminate|].
    destruct (push_all _ xs) as [[w2 oks]|] eqn:E2; [|discriminate].
    injection E as <- <-.
    destruct (IH _ _ _ (push_holds w l x H He) E2) as [-> H2].
    cbn [map fst]. rewrite <- app_assoc in H2. split; [reflexivity|exact H2].
Qed.

Lemma pop_all_holds (rs : list (option Z)) (zs : list Z) (w : world) (l : list Z) :
  holds w (l ++ rev zs) -> length rs = length zs ->
  exists w', pop_all w rs = Some (w', true, zs) /\ holds w' l.
Proof.
  revert zs w. induction rs as [|r rs IH]; intros zs w H Hlen.
  - destruct zs; [|discriminate]. cbn [rev] in H. rewrite app_nil_r in H.
    exists w. split; [reflexivity|assumption].
  - destruct zs as [|z zs]; [discriminate|]. cbn [length] in Hlen.
    cbn [rev] in H. rewrite app_assoc in H.
    assert (Hn : (stk_size (stk w) =? 0) = false).
    { destruct H as [B _]. pose proof (bo_size _ _ _ B) as Hs.
      rewrite length_app in Hs. cbn [length] in Hs. apply Z.eqb_neq. lia. }
    destruct (pop_holds w _ z H) as [H1 Et].
    destruct (IH zs _ H1 ltac:(lia)) as (w' & E' & H2).
    exists w'. cbn [pop_all]. rewrite (pop_checked_holds w _ r H), Hn, E', Et.
    split; [reflexivity|assumption].
Qed.

(** Pops always return. *)
Lemma run_pops (rs : list (option Z)) (w : world) :
  (exists l, holds w l) -> exists w', run w (map Pop rs) = Some w' /\ exists l, holds w' l.
Proof.
  revert w. induction rs as [|r rs IH]; intros w [l H]; cbn [map run].
  - exists w. split; [reflexivity|eauto].
  - rewrite (step_pop_holds w l r H). apply IH.
    eapply step_holds; [eauto|]. apply (step_pop_holds w l r H).
Qed.

(** Induction over the live stacks: a property of the freshly constructed
    stack that every storing push and every removing pop keeps holds of all
    of them. *)
Lemma live_induction (P : world -> Prop) :
  (forall w0 q, verify_empty_stack (stk w0) = 0 ->
                granted q (alloc_bytes INIT_CAP) = true ->
                P (construct_commit w0 (Some q))) ->
  (forall w x, live w -> P w -> expandable (stk w) = false ->
               P (push_commit (stk w, hp w) x)) ->
  (forall w, live w -> P w -> stk_size (stk w) <> 0 ->
             P (pop_commit (stk w, hp w))) ->
  forall w, live w -> P w.
Proof.
  intros Hc Hpush Hpop w (w0 & error & r & w1 & e & ops & Ec & Er).
  assert (L1 : live w1) by (eapply live_constructed; eassumption).
  assert (P1 : P w1).
  { destruct (construct_stack_cases w0 error r Hok) as [[E' _]|[[E' _]|[E' [Hz G]]]];
      rewrite E' in Ec; try discriminate.
    injection Ec as <- _ _. destruct r as [q|]; [|discriminate]. apply Hc; assumption. }
  clear Ec. revert w1 L1 P1 Er.
  induction ops as [|o ops IH]; intros w1 L1 P1 Er; cbn [run] in Er.
  - injection Er as <-. exact P1.
  - destruct (step w1 o) as [w2|] eqn:E1; [|discriminate].
    apply (IH w2); [eapply live_step; eassumption| |exact Er].
    destruct (live_holds w1 L1) as [l H].
    destruct o as [item r'|r'].
    + rewrite (step_push_holds w1 l item r' H) in E1.
      destruct (expandable (stk w1)) eqn:He; [discriminate|]. injection E1 as <-.
      apply Hpush; assumption.
    + rewrite (step_pop_holds w1 l r' H) in E1.
      destruct (Z.eqb_spec (stk_size (stk w1)) 0) as [E0|Hn]; injection E1 as <-;
        [assumption|]. apply Hpop; assumption.
Qed.

Lemma bytes_store_item_at (h : heap) (a v : Z) :
  bytes (store_item_at h a v) = store_item (bytes h) a v.
Proof. reflexivity. Qed.

Lemma push_poisoned (w : world) (l : list Z) (x : Z) :
  holds w l -> poisoned w -> expandable (stk w) = false ->
  poisoned (push_commit (stk w, hp w) x).
Proof.
  intros [B _] Hp He. destruct B.
  unfold expandable in He. apply Z.eqb_neq in He.
  assert (Hs0 : 0 <= stk_size (stk w)) by lia.
  rewrite bo_capacity0 in *.
  destruct (store_at_index Hok (bytes (hp w)) (stk_items (stk w)) (stk_size (stk w)) x)
    as (_ & _ & Si & _); try assumption; [lia|].
  unfold poisoned, slot, push_commit in *.
  cbn [stk hp set_hash set_size stk_size stk_capacity stk_items].
  rewrite bytes_store_item_at, bo_capacity0.
  assert (Hw : size_wrap (stk_size (stk w) + 1) = stk_size (stk w) + 1).
  { apply Z.mod_small. unfold INIT_CAP in *. lia. }
  rewrite Hw. intros i Hi. rewrite Si by lia. apply Hp. rewrite bo_capacity0. lia.
Qed.

Lemma pop_poisoned (w : world) (l : list Z) :
  holds w l -> poisoned w -> stk_size (stk w) <> 0 ->
  poisoned (pop_commit (stk w, hp w)).
Proof.
  intros [B _] Hp Hn. destruct B.
  assert (Hs0 : 0 <= stk_size (stk w)) by lia.
  rewrite bo_capacity0 in *.
  destruct (store_at_index Hok (bytes (hp w)) (stk_items (stk w))
              (stk_size (stk w) - 1) POISON)
    as (_ & _ & Si & Sn); try assumption; [lia|].
  unfold poisoned, slot, pop_commit in *.
  cbn [stk hp set_hash set_size stk_size stk_capacity stk_items].
  rewrite bytes_store_item_at, bo_capacity0.
  assert (Hw : size_wrap (stk_size (stk w) - 1) = stk_size (stk w) - 1).
  { apply Z.mod_small. unfold INIT_CAP in *. lia. }
  rewrite Hw. intros i Hi.
  destruct (Z.eq_dec i (stk_size (stk w) - 1)) as [->|Hne].
  - rewrite Sn. apply (item_of_bits_representable Hok), (representable_POISON Hok).
  - rewrite Si by lia. apply Hp. rewrite bo_capacity0. lia.
Qed.

Lemma live_poisoned (w : world) : live w -> poisoned w.
Proof.
  apply (live_induction poisoned).
  - intros w0 q Hz G. apply (construct_holds Hok w0 q Hz G).
  - intros w' x L Hp He. destruct (live_holds w' L) as [l H].
    eapply push_poisoned; eassumption.
  - intros w' L Hp Hn. destruct (live_holds w' L) as [l H].
    eapply pop_poisoned; eassumption.
Qed.

Lemma live_items_nonnull (w : world) : live w -> 0 < stk_items (stk w).
Proof. intros L. destruct (live_holds w L) as [l [B _]]. apply B. Qed.

Lemma live_capacity (w : world) : live w -> stk_capacity (stk w) = INIT_CAP.
Proof. intros L. destruct (live_holds w L) as [l [B _]]. apply B. Qed.

Lemma live_lost (w : world) : live w -> reachable w = false.
Proof. intros L. destruct (live_holds w L) as [l H]. eapply holds_lost; eassumption. Qed.

(** On a zeroed stack [construct_stack] succeeds whenever the allocator
    grants the buffer. *)
Lemma construct_stack_succeeds (w : world) (error r : option Z) :
  verify_empty_stack (stk w) = 0 -> grants r (alloc_bytes INIT_CAP) = true ->
  construct_stack w error r = Some (construct_commit w r, error, true).
Proof.
  intros Hz G.
  destruct (construct_stack_cases w error r Hok) as [[_ N]|[[_ [_ N]]|[E' _]]];
    [contradiction|congruence|].
  rewrite E'. destruct r as [q|]; [|discriminate]. cbn [grants] in G.
  destruct (construct_holds Hok w q Hz G) as (H & _).
  apply holds_valid in H. unfold valid in H. rewrite H. reflexivity.
Qed.

End Live.

(** ** The demo instance *)

Lemma demo_header_ok : header_ok demo_header.
Proof. constructor; cbn; lia. Defined.

Lemma demo_fresh_constructed :
  construct_stack (hd := demo_header) demo_zero None (Some 4096)
  = Some (demo_fresh, None, true).
Proof.
  unfold demo_fresh.
  rewrite (construct_stack_succeeds demo_header_ok) by reflexivity.
  reflexivity.
Defined.

Lemma demo_fresh_live : live (hd := demo_header) demo_fresh.
Proof. exact (live_constructed _ _ _ _ _ demo_fresh_constructed). Defined.

Lemma demo_run_live (ops : list op) :
  returned (run (hd := demo_header) demo_fresh ops) = true ->
  live (hd := demo_header) (demo_run ops).
Proof.
  intros R. apply (live_run demo_fresh _ ops demo_fresh_live).
  unfold demo_run. destruct (run demo_fresh ops); [reflexivity|discriminate R].
Defined.

Lemma demo_three_live : live (hd := demo_header) demo_three.
Proof. apply demo_run_live. vm_compute. reflexivity. Defined.

Lemma demo_full_live : live (hd := demo_header) demo_full.
Proof. apply demo_run_live. vm_compute. reflexivity. Defined.

Lemma returned_some {A : Type} (o : option A) (d : A) :
  returned o = true -> o = Some (match o with Some a => a | None => d end).
Proof. destruct o; [reflexivity|discriminate]. Defined.

(** ** The stack operations *)

(** C9. The verifier is read-only: for every state of the stack object and
    of the memory, corrupted or not, [verify_stack] returns its mask and the
    stack object with every field as it was before the call, and so does
    [hash_stack], which clears the checksum field and then restores it.  The
    memory is an input only. *)
Theorem verify_stack_read_only {hd : header} (s : stack_t) (m : mem) :
  verify_stack s m = (s, verify_mask s m) /\
  forall seed, fst (hash_stack s m seed) = s.
Proof.
  split; [apply verify_stack_eq|]. intros seed. apply hash_stack_restores.
Qed.

(** C5. On a valid stack with [size == 0], [pop_stack] reports
    [STK_EMPTY_POP], returns the poison value and leaves the stack object
    and the heap as they were. *)
Theorem pop_empty {hd : header} (w : world) (error r : option Z) :
  header_ok hd -> valid w -> stk_size (stk w) = 0 ->
  pop_stack w error r = Some (w, set_error error STK_EMPTY_POP, POISON) /\
  STK_EMPTY_POP <> 0.
Proof.
  intros Hok V H0. split; [|apply Hok].
  rewrite pop_stack_empty, POISON_round_trip by assumption. reflexivity.
Qed.

Lemma pop_empty_witness :
  header_ok demo_header /\
  valid (hd := demo_header) demo_fresh /\
  stk_size (stk demo_fresh) = 0 /\
  pop_stack (hd := demo_header) demo_fresh (Some 0) None
  = Some (demo_fresh, Some 0x200, 0x75757575).
Proof.
  assert (V : valid (hd := demo_header) demo_fresh) by (vm_compute; reflexivity).
  assert (H0 : stk_size (stk demo_fresh) = 0) by (vm_compute; reflexivity).
  split; [exact demo_header_ok|]. split; [exact V|]. split; [exact H0|].
  exact (proj1 (pop_empty (hd := demo_header) demo_fresh (Some 0) None
                          demo_header_ok V H0)).
Defined.

(** C7. On a stack object that is not zeroed (some field is nonzero),
    [construct_stack] fails: it reports the nonzero mask of
    [verify_empty_stack], returns the null pointer, and leaves the stack
    object and the heap, its table of allocations included, as they were. *)
Theorem construct_not_empty {hd : header} (w : world) (error r : option Z) :
  header_ok hd -> stk w <> zero_stack ->
  verify_empty_stack (stk w) <> 0 /\
  construct_stack w error r =
  Some (w, set_error error (verify_empty_stack (stk w)), false).
Proof.
  intros Hok Hnz.
  assert (N : verify_empty_stack (stk w) <> 0).
  { intros E. apply Hnz. apply verify_empty_zero; assumption. }
  split; [assumption|].
  destruct (construct_stack_cases w error r Hok) as [[E _]|[[_ [Z0 _]]|[_ [Z0 _]]]];
    [assumption|contradiction..].
Qed.

Lemma construct_not_empty_witness :
  header_ok demo_header /\ stk demo_fresh <> zero_stack /\
  construct_stack (hd := demo_header) demo_fresh (Some 0) (Some 8192)
  = Some (demo_fresh, Some 0x3D, false).
Proof.
  assert (N : stk demo_fresh <> zero_stack).
  { intros E. apply (f_equal stk_capacity) in E. vm_compute in E. discriminate E. }
  split; [exact demo_header_ok|]. split; [exact N|].
  exact (proj2 (construct_not_empty (hd := demo_header) demo_fresh (Some 0) (Some 8192)
                                    demo_header_ok N)).
Defined.

(** C6. Every stack reached from a successful [construct_stack] by pushes
    and pops has [size <= capacity] and [capacity >= INIT_CAP = 8]; pops,
    however many, all return and do not take the capacity below 8. *)
Theorem live_invariant {hd : header} (w : world) :
  header_ok hd -> live w ->
  0 <= stk_size (stk w) <= stk_capacity (stk w) /\
  INIT_CAP <= stk_capacity (stk w) /\ INIT_CAP = 8 /\
  forall rs, exists w', run w (map Pop rs) = Some w' /\
                        INIT_CAP <= stk_capacity (stk w').
Proof.
  intros Hok L.
  assert (D : forall w', (exists l, holds w' l) ->
              0 <= stk_size (stk w') <= stk_capacity (stk w') /\
              INIT_CAP <= stk_capacity (stk w')).
  { intros w' [l [B _]]. destruct B. rewrite bo_capacity0 in *. lia. }
  pose proof (live_holds Hok w L) as H.
  destruct (D w H) as [Hs Hc]. repeat split; try assumption; try apply Hs.
  intros rs. destruct (run_pops Hok rs w H) as (w' & E & H').
  exists w'. split; [exact E|]. apply D, H'.
Qed.

Lemma live_invariant_witness :
  header_ok demo_header /\ live (hd := demo_header) demo_three /\
  0 <= stk_size (stk demo_three) <= stk_capacity (stk demo_three) /\
  INIT_CAP <= stk_capacity (stk demo_three) /\ INIT_CAP = 8 /\
  forall rs, exists w', run (hd := demo_header) demo_three (map Pop rs) = Some w' /\
                        INIT_CAP <= stk_capacity (stk w').
Proof.
  split; [exact demo_header_ok|]. split; [exact demo_three_live|].
  exact (live_invariant (hd := demo_header) demo_three demo_header_ok demo_three_live).
Defined.

(** C1. LIFO law and round trip: on a live stack, when the values
    [x1 .. xn] are pushed without an error and [n] pops follow, then every
    pop returns without an error and the pops return [xn .. x1].  With
    [n = 1], a pop right after [push(v)] returns [v], for every
    representable [v], the poison pattern included. *)
Theorem lifo_law {hd : header} (w w2 : world) (xs : list (Z * option Z))
        (rs : list (option Z)) :
  header_ok hd -> live w ->
  Forall representable (map fst xs) ->
  push_all w xs = Some (w2, true) ->
  length rs = length xs ->
  (exists w3, pop_all w2 rs = Some (w3, true, rev (map fst xs))) /\
  representable POISON.
Proof.
  intros Hok L Hrep Ep Hlen.
  destruct (live_holds Hok w L) as [l H].
  destruct (push_all_holds Hok xs w w2 true l H Ep) as [_ H2].
  rewrite (map_item_of_bits Hok _ Hrep) in H2.
  rewrite <- (rev_involutive (map fst xs)) in H2.
  assert (Hlen' : length rs = length (rev (map fst xs)))
    by (rewrite length_rev, length_map; exact Hlen).
  split; [|apply representable_POISON, Hok].
  destruct (pop_all_holds Hok rs (rev (map fst xs)) w2 l H2 Hlen') as (w3 & E & _).
  exists w3. exact E.
Qed.

Lemma demo_pushed_eq :
  push_all (hd := demo_header) demo_fresh demo_lifo = Some (demo_pushed, true).
Proof.
  assert (R : returned (push_all (hd := demo_header) demo_fresh demo_lifo) = true)
    by (vm_compute; reflexivity).
  unfold demo_pushed.
  destruct (push_all demo_fresh demo_lifo) as [[w ok]|] eqn:E; [|discriminate R].
  destruct (live_holds demo_header_ok _ demo_fresh_live) as [l H].
  destruct (push_all_holds demo_header_ok _ _ _ _ _ H E) as [-> _]. reflexivity.
Defined.

Lemma lifo_law_witness :
  header_ok demo_header /\ live (hd := demo_header) demo_fresh /\
  Forall (representable (hd := demo_header)) (map fst demo_lifo) /\
  push_all (hd := demo_header) demo_fresh demo_lifo = Some (demo_pushed, true) /\
  length demo_answers = length demo_lifo /\
  exists w3,
    pop_all (hd := demo_header) demo_pushed demo_answers
    = Some (w3, true, [8; 42; 2147483647; -2147483648; 0; 0x75757575; -1; 7]).
Proof.
  assert (Hrep : Forall (representable (hd := demo_header)) (map fst demo_lifo)).
  { repeat constructor; cbn; lia. }
  split; [exact demo_header_ok|]. split; [exact demo_fresh_live|].
  split; [exact Hrep|]. split; [exact demo_pushed_eq|]. split; [reflexivity|].
  exact (proj1 (lifo_law (hd := demo_header) demo_fresh demo_pushed demo_lifo
                  demo_answers demo_header_ok demo_fresh_live Hrep demo_pushed_eq
                  eq_refl)).
Defined.

(** C3. The doubling of a full stack is never completed.  On a live
    stack the capacity is 8; a push onto a stack that is not full stores
    its element and leaves the capacity alone; a push onto a full stack
    (eight elements) asks [realloc] for the larger buffer, passing the
    buffer whose record the left guard word has overwritten, and the call
    does not return.  No ninth push succeeds, and no stack of capacity 16 or
    32 is ever reached. *)
Theorem growth_never_returns {hd : header} (w : world) (item : Z) (error r : option Z) :
  header_ok hd -> live w ->
  stk_capacity (stk w) = 8 /\
  (expandable (stk w) = true ->
   stk_size (stk w) = 8 /\ push_stack w item error r = None) /\
  (expandable (stk w) = false ->
   exists w', push_stack w item error r = Some (w', error) /\
              stk_capacity (stk w') = 8 /\ stk_size (stk w') = stk_size (stk w) + 1).
Proof.
  intros Hok L. destruct (live_holds Hok w L) as [l H].
  pose proof (live_capacity Hok w L) as Hc. split; [exact Hc|].
  rewrite (push_stack_holds Hok w l item error r H). split.
  - intros He. rewrite He. split; [|reflexivity].
    unfold expandable in He. apply Z.eqb_eq in He. rewrite <- He. exact Hc.
  - intros He. rewrite He. eexists. split; [reflexivity|].
    destruct (push_commit_fields (stk w, hp w) item) as (_ & -> & -> & _).
    cbn [fst]. split; [exact Hc|].
    destruct H as [B _]. destruct B. unfold expandable in He. apply Z.eqb_neq in He.
    apply Z.mod_small. unfold INIT_CAP in *. lia.
Qed.

Lemma growth_never_returns_witness :
  header_ok demo_header /\ live (hd := demo_header) demo_full /\
  stk_capacity (stk demo_full) = 8 /\ stk_size (stk demo_full) = 8 /\
  push_stack (hd := demo_header) demo_full 9 (Some 0) (Some 8192) = None.
Proof.
  split; [exact demo_header_ok|]. split; [exact demo_full_live|].
  pose proof (growth_never_returns (hd := demo_header) demo_full 9 (Some 0) (Some 8192)
                demo_header_ok demo_full_live) as (Hc & Hf & _).
  split; [exact Hc|]. exact (Hf eq_refl).
Defined.

(** C2. The shrinking pop is never reached.  On a live
    stack the capacity is 8, so [shrinkable] is false; every pop returns
    and leaves the capacity at 8.  A stack of capacity 16 would have to
    come from a ninth push, which does not return (see C3). *)
Theorem shrink_unreachable {hd : header} (w : world) (error r : option Z) :
  header_ok hd -> live w ->
  stk_capacity (stk w) = 8 /\ shrinkable (stk w) = false /\
  (shrinkable (stk w) = true <->
   stk_size (stk w) <= size_wrap (stk_capacity (stk w) / 4 + 1) /\
   8 < stk_capacity (stk w)) /\
  exists w' e x, pop_stack w error r = Some (w', e, x) /\ stk_capacity (stk w') = 8.
Proof.
  intros Hok L. destruct (live_holds Hok w L) as [l H].
  pose proof (live_capacity Hok w L) as Hc.
  split; [exact Hc|]. split; [eapply holds_not_shrinkable; eassumption|]. split.
  - unfold shrinkable, CAP_FACTOR, INIT_CAP.
    change (size_wrap (2 * 2)) with 4.
    rewrite andb_true_iff, Z.leb_le, Z.ltb_lt. tauto.
  - rewrite (pop_stack_holds Hok w l error r H).
    destruct (stk_size (stk w) =? 0).
    + do 3 eexists. split; [reflexivity|exact Hc].
    + do 3 eexists. split; [reflexivity|].
      destruct (pop_commit_fields (stk w, hp w)) as (_ & -> & _). exact Hc.
Qed.

Lemma shrink_unreachable_witness :
  header_ok demo_header /\ live (hd := demo_header) demo_full /\
  stk_capacity (stk demo_full) = 8 /\ shrinkable (stk demo_full) = false.
Proof.
  split; [exact demo_header_ok|]. split; [exact demo_full_live|].
  pose proof (shrink_unreachable (hd := demo_header) demo_full None None
                demo_header_ok demo_full_live) as (Hc & Hs & _).
  split; [exact Hc|exact Hs].
Defined.

(** Nine pushes onto a fresh stack: the run does not get past the ninth. *)
Example nine_pushes_do_not_return :
  returned (run (hd := demo_header) demo_fresh (demo_pushes 8)) = true /\
  run (hd := demo_header) demo_fresh (demo_pushes 9) = None /\
  run (hd := demo_header) demo_fresh (demo_pushes 9 ++ demo_pops 4) = None.
Proof. vm_compute. repeat split. Qed.

(** C8. [destruct_stack] on a live stack does not return: it calls [free]
    on the buffer whose record the left guard word has overwritten.  The
    stack object is not reset, and there is no second [destruct_stack] and
    no [construct_stack] after it. *)
Theorem destruct_never_returns {hd : header} (w : world) :
  header_ok hd -> live w -> destruct_stack w = None.
Proof.
  intros Hok L. pose proof (live_items_nonnull Hok w L) as Hp.
  pose proof (live_lost Hok w L) as Hl. unfold reachable in Hl.
  unfold destruct_stack.
  destruct (Z.eqb_spec (stk_items (stk w)) 0) as [E|_]; [lia|].
  rewrite free_lost by exact Hl. reflexivity.
Qed.

Lemma destruct_never_returns_witness :
  header_ok demo_header /\ live (hd := demo_header) demo_fresh /\
  destruct_stack demo_fresh = None.
Proof.
  split; [exact demo_header_ok|]. split; [exact demo_fresh_live|].
  exact (destruct_never_returns (hd := demo_header) demo_fresh demo_header_ok
           demo_fresh_live).
Defined.

(** On a stack object without a buffer [destruct_stack] returns, with
    every field zero and the heap as it was. *)
Lemma destruct_stack_null {hd : header} (w : world) :
  stk_items (stk w) = 0 -> destruct_stack w = Some (mkWorld zero_stack (hp w)).
Proof. intros E. unfold destruct_stack. rewrite E. reflexivity. Qed.







(** ** Further properties: poison and contents *)

(** X2. On a live stack every slot from [size] up to [capacity] holds the
    poison value: [realloc_stack] fills the slots it exposes, and
    [pop_stack] overwrites the slot it vacates. *)
Theorem unused_slots_poisoned {hd : header} (w : world) (i : Z) :
  header_ok hd -> live w ->
  stk_size (stk w) <= i < stk_capacity (stk w) ->
  slot w i = POISON.
Proof. intros Hok L Hi. apply (live_poisoned Hok w L), Hi. Qed.

Lemma unused_slots_poisoned_witness :
  header_ok demo_header /\ live (hd := demo_header) demo_three /\
  stk_size (stk demo_three) <= 7 < stk_capacity (stk demo_three) /\
  slot (hd := demo_header) demo_three 7 = 0x75757575.
Proof.
  assert (Hi : stk_size (stk demo_three) <= 7 < stk_capacity (stk demo_three))
    by (vm_compute; split; [discriminate|reflexivity]).
  split; [exact demo_header_ok|]. split; [exact demo_three_live|]. split; [exact Hi|].
  exact (unused_slots_poisoned (hd := demo_header) demo_three 7 demo_header_ok
           demo_three_live Hi).
Defined.

(** X3. The stack as a list: on a live stack a push that reports no error
    appends its value to the contents (the slots below [size], bottom
    first) and a push that reports an error leaves the contents alone; a
    pop that reports no error removes the last element of the contents and
    returns it, and a pop that reports an error leaves the contents alone
    and returns the poison value.  A push onto a stack that is not full
    returns and reports no error; a pop always returns.  This holds for any
    interleaving of pushes and pops, because the result of either is live
    again. *)
Theorem contents_push_pop {hd : header} (w : world) (x : Z) (r r' : option Z) :
  header_ok hd -> live w -> representable x ->
  (forall pw ok, push_checked w x r = Some (pw, ok) ->
     contents pw = (if ok then contents w ++ [x] else contents w) /\ live pw) /\
  (expandable (stk w) = false ->
   exists pw, push_checked w x r = Some (pw, true)) /\
  (exists qw ok y, pop_checked w r' = Some (qw, ok, y) /\
     (if ok then contents w = contents qw ++ [y]
      else contents qw = contents w /\ y = POISON) /\
     live qw).
Proof.
  intros Hok L Hx. destruct (live_holds Hok w L) as [l H].
  rewrite (holds_contents w l H). split; [|split].
  - intros pw ok E. rewrite (push_checked_holds Hok w l x r H) in E.
    destruct (expandable (stk w)) eqn:He; [discriminate|]. injection E as <- <-.
    pose proof (push_holds Hok w l x H He) as H'.
    rewrite (item_of_bits_representable Hok x Hx) in H'.
    split; [apply holds_contents, H'|].
    apply (live_step w _ (Push x r) L). rewrite (step_push_holds Hok w l x r H), He.
    reflexivity.
  - intros He. rewrite (push_checked_holds Hok w l x r H), He. eexists. reflexivity.
  - rewrite (pop_checked_holds Hok w l r' H).
    assert (Ls : forall qw, step w (Pop r') = Some qw -> live qw)
      by (intros qw; apply live_step, L).
    rewrite (step_pop_holds Hok w l r' H) in Ls.
    destruct (Z.eqb_spec (stk_size (stk w)) 0) as [E0|Hn].
    + do 3 eexists. split; [reflexivity|]. cbv iota.
      split; [split; [apply holds_contents, H|reflexivity]|]. apply Ls. reflexivity.
    + do 3 eexists. split; [reflexivity|]. cbv iota.
      destruct (holds_nonempty w l H Hn) as (l' & z & ->).
      destruct (pop_holds Hok w l' z H) as [H' Et].
      rewrite (holds_contents _ l' H'), Et. split; [reflexivity|]. apply Ls. reflexivity.
Qed.

Lemma contents_push_pop_witness :
  header_ok demo_header /\ live (hd := demo_header) demo_three /\
  representable (hd := demo_header) 9 /\
  (exists pw, push_checked (hd := demo_header) demo_three 9 (Some 8192) = Some (pw, true) /\
              contents (hd := demo_header) pw = [1; 2; 3; 9]) /\
  exists qw, pop_checked (hd := demo_header) demo_three (Some 12288) = Some (qw, true, 3) /\
             [1; 2; 3] = contents (hd := demo_header) qw ++ [3].
Proof.
  assert (Hx : representable (hd := demo_header) 9)
    by (unfold representable, item_bits; cbn; lia).
  split; [exact demo_header_ok|]. split; [exact demo_three_live|]. split; [exact Hx|].
  pose proof (contents_push_pop (hd := demo_header) demo_three 9 (Some 8192) (Some 12288)
                demo_header_ok demo_three_live Hx)
    as (H1 & Hp & qw & ok & y & E & H2 & _).
  assert (E4 : contents (hd := demo_header) demo_three = [1; 2; 3])
    by (vm_compute; reflexivity).
  rewrite E4 in H1, H2. split.
  - destruct (Hp eq_refl) as [pw Ep]. exists pw. split; [exact Ep|].
    exact (proj1 (H1 pw true Ep)).
  - exists qw.
    assert (Eo : option_map (fun p => (snd (fst p), snd p))
                   (pop_checked (hd := demo_header) demo_three (Some 12288))
                 = Some (true, 3)) by (vm_compute; reflexivity).
    rewrite E in Eo. cbn in Eo. injection Eo as -> ->. split; [exact E|exact H2].
Defined.

(** ** Further properties: the verifier *)

Section Flags.

Context {hd : header}.

Lemma has_flag_lor_r (a f : Z) : has_flag (Z.lor a f) f.
Proof.
  unfold has_flag. apply Z.bits_inj'. intros n Hn.
  rewrite Z.land_spec, Z.lor_spec. destruct (Z.testbit a n), (Z.testbit f n); reflexivity.
Qed.

Lemma has_flag_lor_l (a g f : Z) : has_flag a f -> has_flag (Z.lor a g) f.
Proof.
  unfold has_flag. intros H. apply Z.bits_inj'. intros n Hn.
  apply (f_equal (fun z => Z.testbit z n)) in H.
  rewrite Z.land_spec in H. rewrite Z.land_spec, Z.lor_spec.
  destruct (Z.testbit a n), (Z.testbit f n), (Z.testbit g n);
    try reflexivity; discriminate H.
Qed.

Lemma has_flag_nz (mask f : Z) : has_flag mask f -> f <> 0 -> mask <> 0.
Proof. unfold has_flag. intros H Hf ->. rewrite Z.land_0_l in H. congruence. Qed.

Lemma verify_mask_pass_null (s : stack_t) (m : mem) :
  INIT_CAP <= stk_capacity s <= CAP_MAX -> stk_size s <= stk_capacity s ->
  stk_left_canary s = CANARY -> stk_right_canary s = CANARY ->
  stk_items s = 0 ->
  verify_mask s m = 0.
Proof.
  intros Hc Hs Hl Hr Hi. unfold verify_mask, verify_stack.
  rewrite Hi, Hl, Hr, !Z.eqb_refl. cbn [Z.eqb snd].
  destruct (Z.ltb_spec CAP_MAX (stk_capacity s)); [lia|].
  destruct (Z.ltb_spec (stk_capacity s) INIT_CAP); [lia|].
  destruct (Z.ltb_spec (stk_capacity s) (stk_size s)); [lia|]. reflexivity.
Qed.

Lemma verify_mask_flags (s : stack_t) (m : mem) :
  let mask := verify_mask s m in
  (CAP_MAX < stk_capacity s \/ stk_capacity s < INIT_CAP ->
   has_flag mask INVALID_CAPACITY) /\
  (stk_capacity s < stk_size s -> has_flag mask INVALID_SIZE) /\
  (stk_left_canary s <> CANARY -> has_flag mask INVALID_STK_LCNRY) /\
  (stk_right_canary s <> CANARY -> has_flag mask INVALID_STK_RCNRY) /\
  (stk_items s <> 0 ->
   load 8 m (left_canary (stk_items s) (stk_capacity s)) <> Z.lxor CANARY (stk_items s) ->
   has_flag mask INVALID_DATA_LCNRY) /\
  (stk_items s <> 0 ->
   load 8 m (right_canary (stk_items s) (stk_capacity s)) <> Z.lxor CANARY (stk_items s) ->
   has_flag mask INVALID_DATA_RCNRY) /\
  (stk_items s <> 0 -> stk_hash s <> hash_value s m -> has_flag mask INVALID_HASH).
Proof.
  cbv zeta. unfold verify_mask, verify_stack. rewrite hash_stack_eq.
  assert (Hl : forall c a g f, has_flag a f -> has_flag (if c : bool then Z.lor a g else a) f)
    by (intros [] a g f H; [apply has_flag_lor_l|]; exact H).
  assert (Hr : forall c a g f, has_flag a f -> has_flag (if c : bool then a else Z.lor a g) f)
    by (intros [] a g f H; [|apply has_flag_lor_l]; exact H).
  assert (Ht : forall a g, has_flag (if true then Z.lor a g else a) g)
    by (intros; apply has_flag_lor_r).
  assert (Hf : forall a g, has_flag (if false then a else Z.lor a g) g)
    by (intros; apply has_flag_lor_r).
  destruct (stk_items s =? 0) eqn:Ei; cbn [snd];
    (split; [|split; [|split; [|split; [|split; [|split]]]]]).
  all: try (intros Hn _; apply Z.eqb_neq in Hn; congruence).
  all: try (intros [H|H]; [apply Z.ltb_lt in H|apply Z.ltb_lt in H]; rewrite H,
            ?orb_true_r; cbn [orb]).
  all: try (intros H; apply Z.ltb_lt in H; rewrite H).
  all: try (intros H; apply Z.eqb_neq in H; rewrite H).
  all: try (intros _ H; apply Z.eqb_neq in H; rewrite H).
  all: repeat first [apply Ht | apply Hf | apply Hl | apply Hr].
Qed.

End Flags.

(** X5. The verifier accepts exactly the states that pass every check:
    the mask of [verify_stack] is zero if and only if the capacity is
    between [INIT_CAP] and [CAP_MAX], the size is at most the capacity, both
    guard words of the object equal [CANARY], and, unless [items] is null,
    both guard words of the buffer equal [CANARY ^ items] and the stored
    checksum equals the recomputed one.  With a null [items] neither the
    buffer guards nor the checksum are looked at. *)
Theorem verify_stack_accepts {hd : header} (s : stack_t) (m : mem) :
  header_ok hd ->
  (verify_mask s m = 0 <->
   INIT_CAP <= stk_capacity s <= CAP_MAX /\ stk_size s <= stk_capacity s /\
   stk_left_canary s = CANARY /\ stk_right_canary s = CANARY /\
   (stk_items s <> 0 ->
    load 8 m (left_canary (stk_items s) (stk_capacity s)) = Z.lxor CANARY (stk_items s) /\
    load 8 m (right_canary (stk_items s) (stk_capacity s)) = Z.lxor CANARY (stk_items s) /\
    stk_hash s = hash_value s m)).
Proof.
  intros Hok. split; [apply verify_mask_0, Hok|].
  intros (Hc & Hs & Hl & Hr & Hi).
  destruct (Z.eq_dec (stk_items s) 0) as [E|N].
  - apply verify_mask_pass_null; assumption.
  - destruct (Hi N) as (Hdl & Hdr & Hh). apply verify_mask_pass; assumption.
Qed.

Lemma verify_stack_accepts_witness :
  header_ok demo_header /\
  verify_mask (hd := demo_header) (stk demo_three) (bytes (hp demo_three)) = 0 /\
  stk_size (stk demo_three) <= stk_capacity (stk demo_three) /\
  stk_left_canary (stk demo_three) = 0xBADC0FFEE0DDF00D.
Proof.
  assert (V : verify_mask (hd := demo_header) (stk demo_three) (bytes (hp demo_three)) = 0)
    by (vm_compute; reflexivity).
  split; [exact demo_header_ok|]. split; [exact V|].
  pose proof (proj1 (verify_stack_accepts (hd := demo_header) (stk demo_three)
                       (bytes (hp demo_three)) demo_header_ok) V) as (_ & Hs & Hl & _).
  split; [exact Hs|exact Hl].
Defined.

(** X6. Each check of [verify_stack] that fails puts its own flag into
    the mask, whatever the other checks find: a capacity out of range sets
    [INVALID_CAPACITY], a size above the capacity [INVALID_SIZE], a wrong
    guard word of the object [INVALID_STK_LCNRY] or [INVALID_STK_RCNRY],
    and, with non-null [items], a wrong guard word of the buffer
    [INVALID_DATA_LCNRY] or [INVALID_DATA_RCNRY] and a wrong checksum
    [INVALID_HASH]. *)
Theorem verify_stack_flags {hd : header} (s : stack_t) (m : mem) :
  let mask := verify_mask s m in
  (CAP_MAX < stk_capacity s \/ stk_capacity s < INIT_CAP ->
   has_flag mask INVALID_CAPACITY) /\
  (stk_capacity s < stk_size s -> has_flag mask INVALID_SIZE) /\
  (stk_left_canary s <> CANARY -> has_flag mask INVALID_STK_LCNRY) /\
  (stk_right_canary s <> CANARY -> has_flag mask INVALID_STK_RCNRY) /\
  (stk_items s <> 0 ->
   load 8 m (left_canary (stk_items s) (stk_capacity s)) <> Z.lxor CANARY (stk_items s) ->
   has_flag mask INVALID_DATA_LCNRY) /\
  (stk_items s <> 0 ->
   load 8 m (right_canary (stk_items s) (stk_capacity s)) <> Z.lxor CANARY (stk_items s) ->
   has_flag mask INVALID_DATA_RCNRY) /\
  (stk_items s <> 0 -> stk_hash s <> hash_value s m -> has_flag mask INVALID_HASH).
Proof. apply verify_mask_flags. Qed.

(** X7. [verify_empty_stack] accepts exactly the zeroed object: its mask
    is zero if and only if every field is zero. *)
Theorem verify_empty_stack_accepts {hd : header} (s : stack_t) :
  header_ok hd -> (verify_empty_stack s = 0 <-> s = zero_stack).
Proof.
  intros Hok. split; [apply verify_empty_zero, Hok|]. intros ->. reflexivity.
Qed.

Lemma verify_empty_stack_accepts_witness :
  header_ok demo_header /\
  verify_empty_stack (hd := demo_header) (stk demo_zero) = 0.
Proof.
  split; [exact demo_header_ok|].
  exact (proj2 (verify_empty_stack_accepts (hd := demo_header)
                  (stk demo_zero) demo_header_ok) eq_refl).
Defined.

(** ** Further properties: stray writes *)

(** X8. A stray write into a guard word of the buffer is caught: on a live
    stack, when one byte of the left or of the right guard word is
    overwritten with a different value, the next [push_stack] or
    [pop_stack] reports a mask that carries [INVALID_DATA_LCNRY] or
    [INVALID_DATA_RCNRY] respectively, and changes nothing: the element is
    not stored, and the pop returns the poison value. *)
Theorem guard_overwrite_detected {hd : header} (w : world) (a b x : Z)
        (error r : option Z) :
  header_ok hd -> live w ->
  let lc := left_canary (stk_items (stk w)) (stk_capacity (stk w)) in
  let rc := right_canary (stk_items (stk w)) (stk_capacity (stk w)) in
  lc <= a < lc + 8 \/ rc <= a < rc + 8 ->
  b mod 256 <> byte_at (bytes (hp w)) a ->
  let w' := poke w a b in
  let mask := verify_mask (stk w') (bytes (hp w')) in
  mask <> 0 /\
  (lc <= a < lc + 8 -> has_flag mask INVALID_DATA_LCNRY) /\
  (rc <= a < rc + 8 -> has_flag mask INVALID_DATA_RCNRY) /\
  push_stack w' x error r = Some (w', set_error error mask) /\
  pop_stack w' error r = Some (w', set_error error mask, POISON).
Proof.
  intros Hok L lc rc Ha Hb w' mask.
  destruct (live_holds Hok w L) as [l [B _]].
  pose proof (bo_data_left _ _ _ B) as Hdl. pose proof (bo_data_right _ _ _ B) as Hdr.
  pose proof (live_items_nonnull Hok w L) as Hp.
  assert (Hnz : stk_items (stk w) <> 0) by lia.
  destruct (verify_mask_flags (stk w') (bytes (hp w')))
    as (_ & _ & _ & _ & Fl & Fr & _).
  assert (Hl : lc <= a < lc + 8 -> has_flag mask INVALID_DATA_LCNRY).
  { intros Hin. apply Fl; [exact Hnz|]. cbn [poke w' stk hp bytes].
    fold lc. rewrite <- Hdl. apply load_poke; [exact Hin|exact Hb]. }
  assert (Hr : rc <= a < rc + 8 -> has_flag mask INVALID_DATA_RCNRY).
  { intros Hin. apply Fr; [exact Hnz|]. cbn [poke w' stk hp bytes].
    fold rc. rewrite <- Hdr. apply load_poke; [exact Hin|exact Hb]. }
  assert (Hm : mask <> 0).
  { destruct Ha as [Hin|Hin].
    - apply (has_flag_nz _ _ (Hl Hin)), Hok.
    - apply (has_flag_nz _ _ (Hr Hin)), Hok. }
  split; [exact Hm|]. split; [exact Hl|]. split; [exact Hr|]. split.
  - apply push_stack_invalid, Hm.
  - rewrite pop_stack_invalid, (POISON_round_trip Hok) by exact Hm. reflexivity.
Qed.

Lemma guard_overwrite_detected_witness :
  header_ok demo_header /\ live (hd := demo_header) demo_full /\
  right_canary (hd := demo_header) (stk_items (stk demo_full))
               (stk_capacity (stk demo_full)) = 4136 /\
  0 mod 256 <> byte_at (bytes (hp demo_full)) 4136 /\
  push_stack (hd := demo_header) (poke demo_full 4136 0) 9 (Some 0) (Some 8192)
  = Some (poke demo_full 4136 0, Some 0x80).
Proof.
  assert (Hb : 0 mod 256 <> byte_at (bytes (hp demo_full)) 4136)
    by (vm_compute; discriminate).
  assert (Hrc : right_canary (hd := demo_header) (stk_items (stk demo_full))
                  (stk_capacity (stk demo_full)) = 4136) by (vm_compute; reflexivity).
  split; [exact demo_header_ok|]. split; [exact demo_full_live|].
  split; [exact Hrc|]. split; [exact Hb|].
  assert (Hin : right_canary (hd := demo_header) (stk_items (stk demo_full))
                  (stk_capacity (stk demo_full)) <= 4136
                < right_canary (hd := demo_header) (stk_items (stk demo_full))
                    (stk_capacity (stk demo_full)) + 8)
    by (rewrite Hrc; lia).
  pose proof (guard_overwrite_detected (hd := demo_header) demo_full 4136 0 9 (Some 0)
                (Some 8192) demo_header_ok demo_full_live (or_intror Hin) Hb)
    as (_ & _ & _ & Hpush & _).
  etransitivity; [exact Hpush|]. do 3 apply f_equal. vm_compute. reflexivity.
Defined.

(** ** Further properties: construct, push and the buffer engine *)

(** X9. [construct_stack] on a zeroed object asks the allocator for
    [8 * sizeof(item_t) + 24] bytes.  When the allocator refuses, it reports
    [STK_BAD_ALLOC], returns the null pointer and leaves the object zeroed.
    When the allocator grants a block, it succeeds without touching the
    caller's error cell: [items] is the block, the capacity is 8, the size
    is 0, both guard words of the object are [CANARY], the verifier accepts
    the stack, and all eight slots hold the poison value. *)
Theorem construct_zeroed {hd : header} (w : world) (error r : option Z) :
  header_ok hd -> stk w = zero_stack ->
  alloc_bytes INIT_CAP = 8 * sizeof_item_t + 24 /\
  (grants r (alloc_bytes INIT_CAP) = false ->
   construct_stack w error r = Some (w, set_error error STK_BAD_ALLOC, false)) /\
  (grants r (alloc_bytes INIT_CAP) = true ->
   exists w',
     construct_stack w error r = Some (w', error, true) /\
     Some (stk_items (stk w')) = r /\
     stk_capacity (stk w') = 8 /\ stk_size (stk w') = 0 /\
     stk_left_canary (stk w') = CANARY /\ stk_right_canary (stk w') = CANARY /\
     valid w' /\ contents w' = [] /\
     forall i, 0 <= i < 8 -> slot w' i = POISON).
Proof.
  intros Hok Hz.
  assert (Hv : verify_empty_stack (stk w) = 0) by (rewrite Hz; reflexivity).
  split; [apply (alloc_bytes_init Hok)|]. split.
  - intros G.
    destruct (construct_stack_cases w error r Hok) as [[_ N]|[[E _]|[_ [_ G']]]];
      [contradiction|exact E|congruence].
  - intros G. exists (construct_commit w r).
    split; [apply (construct_stack_succeeds Hok w error r Hv G)|].
    destruct r as [q|]; [|discriminate]. cbn [grants] in G.
    destruct (construct_holds Hok w q Hv G) as (H & Hp & Hi & Hs & Hc).
    pose proof (holds_contents _ _ H) as Hcn. pose proof (holds_valid _ _ H) as V.
    destruct H as [B _].
    split; [rewrite Hi; reflexivity|]. split; [exact Hc|]. split; [exact Hs|].
    split; [apply B|]. split; [apply B|]. split; [exact V|]. split; [exact Hcn|].
    intros i Hi8. apply Hp. rewrite Hs, Hc. exact Hi8.
Qed.

Lemma construct_zeroed_witness :
  header_ok demo_header /\ stk demo_zero = zero_stack /\
  grants (Some 4096) (alloc_bytes (hd := demo_header) INIT_CAP) = true /\
  exists w',
    construct_stack (hd := demo_header) demo_zero (Some 0) (Some 4096)
    = Some (w', Some 0, true) /\
    slot (hd := demo_header) w' 7 = POISON (hd := demo_header).
Proof.
  split; [exact demo_header_ok|]. split; [reflexivity|]. split; [reflexivity|].
  destruct (proj2 (proj2 (construct_zeroed (hd := demo_header) demo_zero (Some 0)
                            (Some 4096) demo_header_ok eq_refl)) eq_refl)
    as (w' & E & _ & _ & _ & _ & _ & _ & _ & Hp).
  exists w'. split; [exact E|]. apply Hp. lia.
Defined.



(** X11. [realloc_stack] and the allocator's record of the buffer.  When
    the allocator's call on the old buffer does not return, neither does
    [realloc_stack].  When the call returns the null pointer, so does
    [realloc_stack], and the heap is as before.  When the call returns a
    block for a capacity whose elements fit, [realloc_stack] returns its
    address with both guard words set to [CANARY ^ address], the left one
    in the 8 bytes below the block; with that the allocator's record of the
    block is gone, and no later [realloc] or [free] of this buffer
    returns. *)
Theorem realloc_stack_contract {hd : header} (s : stack_t) (h : heap) (c : Z)
        (r : option Z) :
  header_ok hd ->
  (answers h (stk_items s) = false -> realloc_stack s h c r = None) /\
  (answers h (stk_items s) = true -> grants r (alloc_bytes c) = false ->
   realloc_stack s h c r = Some (h, 0)) /\
  (answers h (stk_items s) = true -> grants r (alloc_bytes c) = true ->
   0 <= c * sizeof_item_t <= 2 ^ 64 - 25 ->
   exists h' q,
     realloc_stack s h c r = Some (h', q) /\ Some q = r /\ q <> 0 /\
     load 8 (bytes h') (left_canary q c) = Z.lxor CANARY q /\
     load 8 (bytes h') (right_canary q c) = Z.lxor CANARY q /\
     left_canary q c = q - 8 /\
     answers h' q = false /\
     (forall n r', realloc h' q n r' = None) /\ free h' q = None).
Proof.
  intros Hok. split; [apply realloc_stack_lost|]. split.
  - intros A G. rewrite realloc_stack_answered, reallocated_refused by assumption.
    reflexivity.
  - intros A G Hc. destruct r as [q|]; [|discriminate]. cbn [grants] in G.
    pose proof (realloc_stack_answered s h c (Some q) A) as E.
    pose proof (reallocated_granted s h c q A G) as E'. cbv zeta in E'.
    rewrite E' in E. clear E'.
    destruct (granted_bounds _ _ G) as (Hq & Hn & He).
    assert (Hq0 : q <> 0) by lia.
    pose proof (realloc_stack_loses s h _ c q (Some q) E Hq0) as Hl.
    pose proof (alloc_bytes_exact c Hc) as Ea.
    pose proof (Z.mod_pos_bound (c * sizeof_item_t) 8 ltac:(lia)) as Hm.
    assert (Hx : 0 <= Z.lxor CANARY q < 2 ^ 64) by (apply lxor_range; [apply Hok|lia]).
    assert (Hrc : q + c * sizeof_item_t < right_canary q c).
    { unfold right_canary, size_wrap, sizeof_ptr.
      rewrite (Z.mul_comm sizeof_item_t c), Z.mod_small by lia. lia. }
    do 2 eexists. split; [exact E|]. split; [reflexivity|]. split; [exact Hq0|].
    split; [|split; [|split; [reflexivity|split; [exact Hl|split]]]].
    + cbn [store_at bytes]. rewrite load_store_same.
      change (256 ^ Z.of_nat 8) with (2 ^ 64). apply Z.mod_small, Hx.
    + cbn [store_at bytes]. unfold left_canary, sizeof_canary_t.
      rewrite load_store_other by (change (Z.of_nat 8) with 8; lia).
      rewrite load_store_same. change (256 ^ Z.of_nat 8) with (2 ^ 64).
      apply Z.mod_small, Hx.
    + intros n r'. apply realloc_lost, Hl.
    + apply free_lost, Hl.
Qed.

Lemma realloc_stack_contract_witness :
  header_ok demo_header /\
  answers (hp demo_full) (stk_items (stk demo_full)) = false /\
  realloc_stack (hd := demo_header) (stk demo_full) (hp demo_full) 16 (Some 8192) = None.
Proof.
  assert (A : answers (hp demo_full) (stk_items (stk demo_full)) = false)
    by (vm_compute; reflexivity).
  split; [exact demo_header_ok|]. split; [exact A|].
  exact (proj1 (realloc_stack_contract (hd := demo_header) (stk demo_full) (hp demo_full)
                  16 (Some 8192) demo_header_ok) A).
Defined.

(** X12. Where the guard words of the buffer are.  For a capacity whose
    elements fit, the right guard word starts above the last slot, at an
    offset from [items] that is a multiple of 8, and ends 8 bytes before the
    end of the block that [realloc_stack] asks for; the left guard word is
    the 8 bytes just below [items], that is, below the block. *)
Theorem guard_words_layout {hd : header} (items c : Z) :
  0 <= c * sizeof_item_t <= 2 ^ 64 - 25 ->
  left_canary items c + 8 = items /\
  items + c * sizeof_item_t < right_canary items c /\
  (right_canary items c - items) mod 8 = 0 /\
  right_canary items c + 8 + 8 = items + alloc_bytes c.
Proof.
  intros Hc. rewrite (alloc_bytes_exact c Hc).
  unfold left_canary, right_canary, sizeof_canary_t, sizeof_ptr, size_wrap.
  rewrite (Z.mul_comm sizeof_item_t c), Z.mod_small by lia.
  set (C := c * sizeof_item_t) in *.
  pose proof (Z.mod_pos_bound C 8 ltac:(lia)).
  pose proof (Z.div_mod C 8 ltac:(lia)) as Hdm.
  split; [lia|]. split; [lia|]. split; [|lia].
  replace (items + C + 8 - C mod 8 - items) with ((C / 8 + 1) * 8) by lia.
  apply Z.mod_mul. lia.
Qed.

Lemma guard_words_layout_witness :
  0 <= 9 * sizeof_item_t (header := demo_header) <= 2 ^ 64 - 25 /\
  left_canary 4096 9 + 8 = 4096 /\
  right_canary (hd := demo_header) 4096 9 = 4136 /\
  alloc_bytes (hd := demo_header) 9 = 56.
Proof.
  assert (Hc : 0 <= 9 * sizeof_item_t (header := demo_header) <= 2 ^ 64 - 25)
    by (cbn; lia).
  split; [exact Hc|].
  pose proof (guard_words_layout (hd := demo_header) 4096 9 Hc) as (Hl & _ & _ & _).
  split; [exact Hl|]. split; reflexivity.
Defined.

(** ** Further properties: the dump *)

Section Dump.

Context {hd : header}.

(** The calls of the dump of a stack with a buffer, before the slots. *)
Lemma dump_stack_live (s : stack_t) (m : mem) :
  stk_items s <> 0 ->
  exists head,
    length head = 17%nat /\
    (forall fmt args t, In (log_buf fmt args) head -> In (arg_str t) args ->
       exists f, t = indicate_err (Z.land (verify_mask s m) f)
                 \/ t = indicate_err (verify_mask s m)) /\
    ~ In log_flush head /\
    dump_stack s m =
    (s, (head
         ++ map (fun i => dump_slot s m (Z.of_nat i)) (seq 0 (Z.to_nat (stk_capacity s)))
         ++ [log_buf rule []])
        ++ [log_buf (nl ++ nl ++ nl)%string []; log_flush]).
Proof.
  intros Hn. apply Z.eqb_neq in Hn. unfold dump_stack. rewrite Hn.
  rewrite verify_stack_eq, hash_stack_eq.
  eexists. split; [|split; [|split; [|reflexivity]]].
  - reflexivity.
  - intros fmt args t Hin Ht. cbn [In] in Hin.
    repeat (destruct Hin as [Hin|Hin];
            [injection Hin as <- <-; cbn [In] in Ht;
             repeat (destruct Ht as [Ht|Ht]; [try discriminate Ht|]);
             try contradiction;
             injection Ht as <-;
             first [eexists; left; reflexivity | exists 0; right; reflexivity]|]).
    contradiction.
  - cbn [In]. intros Hin.
    repeat (destruct Hin as [Hin|Hin]; [discriminate Hin|]). exact Hin.
Qed.

Lemma dump_slot_not_flush (s : stack_t) (m : mem) (i : Z) : dump_slot s m i <> log_flush.
Proof. unfold dump_slot. destruct (_ =? _); discriminate. Qed.

Lemma nth_dump_slot (s : stack_t) (m : mem) (head : list log_call) (i : nat)
      (rest : list log_call) :
  (i < Z.to_nat (stk_capacity s))%nat ->
  nth (length head + i)
      ((head ++ map (fun i => dump_slot s m (Z.of_nat i))
                    (seq 0 (Z.to_nat (stk_capacity s))) ++ [log_buf rule []]) ++ rest)
      log_flush
  = dump_slot s m (Z.of_nat i).
Proof.
  intros Hi. rewrite <- !app_assoc. rewrite app_nth2_plus.
  rewrite app_nth1 by (rewrite length_map, length_seq; exact Hi).
  rewrite (nth_indep _ log_flush (dump_slot s m (Z.of_nat 0)))
    by (rewrite length_map, length_seq; exact Hi).
  rewrite (map_nth (fun i => dump_slot s m (Z.of_nat i))).
  rewrite seq_nth by exact Hi. reflexivity.
Qed.

Lemma contents_nth (w : world) (i : nat) :
  (i < Z.to_nat (stk_size (stk w)))%nat ->
  nth i (contents w) 0 = slot w (Z.of_nat i).
Proof.
  intros Hi. unfold contents.
  rewrite (nth_indep _ 0 (slot w (Z.of_nat 0)))
    by (rewrite length_map, length_seq; exact Hi).
  rewrite (map_nth (fun i => slot w (Z.of_nat i))).
  rewrite seq_nth by exact Hi. reflexivity.
Qed.

End Dump.

(** X13. What the dump shows of the slots of a live stack: after the 17
    calls that report the state, call [17 + i] is the line of slot [i], for
    every [i] below the capacity.  A slot at or above [size] is always shown
    as the word [poison]; a slot below [size] is shown with its value,
    except that an element equal to the poison value is shown as the word
    [poison] too. *)
Theorem dump_slots_live {hd : header} (w : world) (i : nat) :
  header_ok hd -> live w -> (i < Z.to_nat (stk_capacity (stk w)))%nat ->
  let line := nth (17 + i) (snd (dump_stack (stk w) (bytes (hp w)))) log_flush in
  let off := arg_int (size_wrap (sizeof_item_t * Z.of_nat i)) in
  let poison_line :=
    log_buf ("| 0x%.4lX stack[%7ld] = %18s |" ++ nl)%string
            [off; arg_int (Z.of_nat i); arg_str "poison"] in
  let x := nth i (contents w) 0 in
  (stk_size (stk w) <= Z.of_nat i -> line = poison_line) /\
  (Z.of_nat i < stk_size (stk w) ->
   line = if x =? POISON then poison_line
          else log_buf ("| 0x%.4lX stack[%7ld] = %18d |" ++ nl)%string
                       [off; arg_int (Z.of_nat i); arg_int x]).
Proof.
  intros Hok L Hi line off poison_line x. subst line off poison_line x.
  pose proof (live_items_nonnull Hok w L) as Hp.
  destruct (dump_stack_live (stk w) (bytes (hp w)) ltac:(lia)) as (head & Hlen & _ & _ & E).
  rewrite E. cbn [snd]. rewrite <- Hlen, nth_dump_slot by exact Hi.
  unfold dump_slot. fold (slot w (Z.of_nat i)). split.
  - intros Hge. rewrite (live_poisoned Hok w L) by lia. rewrite Z.eqb_refl. reflexivity.
  - intros Hlt. rewrite contents_nth by lia. reflexivity.
Qed.

Lemma dump_slots_live_witness :
  header_ok demo_header /\ live (hd := demo_header) demo_three /\
  (2 < Z.to_nat (stk_capacity (stk demo_three)))%nat /\
  nth (17 + 2)
      (snd (dump_stack (hd := demo_header) (stk demo_three) (bytes (hp demo_three))))
      log_flush
  = log_buf ("| 0x%.4lX stack[%7ld] = %18d |" ++ nl)%string
            [arg_int 8; arg_int 2; arg_int 3].
Proof.
  assert (Hi : (2 < Z.to_nat (stk_capacity (stk demo_three)))%nat)
    by (vm_compute; repeat constructor).
  assert (Hlt : Z.of_nat 2 < stk_size (stk demo_three)) by (vm_compute; reflexivity).
  split; [exact demo_header_ok|]. split; [exact demo_three_live|]. split; [exact Hi|].
  pose proof (proj2 (dump_slots_live (hd := demo_header) demo_three 2 demo_header_ok
                       demo_three_live Hi) Hlt) as H.
  cbv zeta in H. rewrite H. vm_compute. reflexivity.
Defined.

(** X14. The dump of a live stack shows no error: every mark that
    [indicate_err] contributes to it is the one for "ok", and the only other
    string argument is the word [poison] of the slot lines. *)
Theorem dump_live_ok {hd : header} (w : world) (fmt t : string) (args : list log_arg) :
  header_ok hd -> live w ->
  In (log_buf fmt args) (snd (dump_stack (stk w) (bytes (hp w)))) ->
  In (arg_str t) args ->
  t = indicate_err 0 \/ t = "poison"%string.
Proof.
  intros Hok L Hin Ht.
  pose proof (live_items_nonnull Hok w L) as Hp.
  pose proof (live_valid Hok w L) as V. unfold valid in V.
  destruct (dump_stack_live (stk w) (bytes (hp w)) ltac:(lia)) as (head & _ & Hh & _ & E).
  rewrite E in Hin. cbn [snd] in Hin.
  rewrite !in_app_iff in Hin. destruct Hin as [[Hin|[Hin|Hin]]|Hin].
  - destruct (Hh fmt args t Hin Ht) as [f [->| ->]]; rewrite V; left; reflexivity.
  - apply in_map_iff in Hin as (i & Hd & _). unfold dump_slot in Hd.
    destruct (_ =? _); injection Hd as <- <-; cbn [In] in Ht;
      repeat (destruct Ht as [Ht|Ht]; [try discriminate Ht|]); try contradiction.
    injection Ht as <-. right. reflexivity.
  - cbn [In] in Hin. destruct Hin as [Hin|[]]. injection Hin as <- <-. contradiction.
  - cbn [In] in Hin. destruct Hin as [Hin|[Hin|[]]]; [|discriminate Hin].
    injection Hin as <- <-. contradiction.
Qed.

Lemma dump_live_ok_witness :
  header_ok demo_header /\ live (hd := demo_header) demo_fresh /\
  In (log_buf (" Stack: %s" ++ nl)%string [arg_str (indicate_err 0)])
     (snd (dump_stack (hd := demo_header) (stk demo_fresh) (bytes (hp demo_fresh)))) /\
  (indicate_err 0 = indicate_err 0 \/ indicate_err 0 = "poison"%string).
Proof.
  assert (Hin : In (log_buf (" Stack: %s" ++ nl)%string [arg_str (indicate_err 0)])
                   (snd (dump_stack (hd := demo_header) (stk demo_fresh)
                           (bytes (hp demo_fresh))))).
  { vm_compute. right. left. reflexivity. }
  split; [exact demo_header_ok|]. split; [exact demo_fresh_live|]. split; [exact Hin|].
  exact (dump_live_ok (hd := demo_header) demo_fresh _ _ _ demo_header_ok demo_fresh_live
           Hin (or_introl eq_refl)).
Defined.

(** X15. The dump leaves the stack object as it was, ends with the call
    [log_buf] of three newlines followed by the only [log_flush], and makes
    [20 + capacity] calls for a stack with a buffer.  For a stack whose
    [items] is null it makes 8 calls and reads no memory: the dump is the
    same whatever the memory holds. *)
Theorem dump_stack_frame {hd : header} (s : stack_t) (m : mem) :
  fst (dump_stack s m) = s /\
  (exists body,
     snd (dump_stack s m) = body ++ [log_buf (nl ++ nl ++ nl)%string []; log_flush] /\
     ~ In log_flush body) /\
  (stk_items s = 0 ->
   length (snd (dump_stack s m)) = 8%nat /\ forall m', dump_stack s m' = dump_stack s m) /\
  (stk_items s <> 0 ->
   length (snd (dump_stack s m)) = (20 + Z.to_nat (stk_capacity s))%nat).
Proof.
  destruct (Z.eq_dec (stk_items s) 0) as [E0|Hn].
  - assert (E : forall m', dump_stack s m' =
        (s, [log_buf rule [];
             log_buf (" Empty stack: %s" ++ nl)%string
                     [arg_str (indicate_err (verify_empty_stack s))];
             log_buf (" Size:     %10ld %s" ++ nl)%string
                     [arg_int (stk_size s);
                      arg_str (indicate_err (Z.land (verify_empty_stack s) INVALID_SIZE))];
             log_buf (" Capacity: %10ld %s" ++ nl)%string
                     [arg_int (stk_capacity s);
                      arg_str (indicate_err
                                 (Z.land (verify_empty_stack s) INVALID_CAPACITY))];
             log_buf (" Address start: nullptr" ++ nl)%string [];
             log_buf rule []]
            ++ [log_buf (nl ++ nl ++ nl)%string []; log_flush])).
    { intros m'. unfold dump_stack. rewrite E0. reflexivity. }
    rewrite (E m). cbn [fst snd]. split; [reflexivity|]. split; [|split].
    + eexists. split; [reflexivity|]. cbn [In]. intros Hin.
      repeat (destruct Hin as [Hin|Hin]; [discriminate Hin|]). exact Hin.
    + intros _. split; [reflexivity|]. intros m'. apply E.
    + intros Hn. contradiction.
  - destruct (dump_stack_live s m Hn) as (head & Hlen & _ & Hnf & E).
    rewrite E. cbn [fst snd]. split; [reflexivity|]. split; [|split].
    + eexists. split; [reflexivity|]. rewrite !in_app_iff. intros [Hin|[Hin|Hin]].
      * exact (Hnf Hin).
      * apply in_map_iff in Hin as (i & Hd & _). exact (dump_slot_not_flush _ _ _ Hd).
      * cbn [In] in Hin. destruct Hin as [Hin|[]]. discriminate Hin.
    + intros E0. contradiction.
    + intros _. rewrite !length_app, length_map, length_seq, Hlen. cbn [length]. lia.
Qed.

(** ** Further properties: the poison value and the checksum *)

Lemma item_of_bits_pattern {hd : header} (u : Z) :
  header_ok hd -> item_of_bits u mod 2 ^ item_bits = u mod 2 ^ item_bits.
Proof.
  intros Hok. pose proof (item_bits_range Hok).
  assert (Hp : 0 < 2 ^ item_bits) by (apply Z.pow_pos_nonneg; lia).
  unfold item_of_bits. cbv zeta.
  destruct (u mod 2 ^ item_bits <? 2 ^ (item_bits - 1)).
  - apply Z.mod_mod. lia.
  - rewrite <- (Z.mod_mod u (2 ^ item_bits)) at 2 by lia.
    symmetry. rewrite <- (Z_mod_plus_full (u mod 2 ^ item_bits - 2 ^ item_bits) 1).
    f_equal. lia.
Qed.

(** X16. The poison value is the fill byte in every byte: the bit pattern
    of [get_poison byte] is [byte] repeated [sizeof(item_t)] times, so
    [255 * pattern = byte * (2 ^ bits - 1)].  [POISON], the pattern of the
    byte ['u'], is a positive element value; in particular it is not 0. *)
Theorem poison_pattern {hd : header} (byte : Z) :
  header_ok hd ->
  255 * (get_poison byte mod 2 ^ item_bits) = (byte mod 256) * (2 ^ item_bits - 1) /\
  255 * POISON = 117 * (2 ^ item_bits - 1) /\
  0 < POISON.
Proof.
  intros Hok. pose proof (item_bits_range Hok) as Hb.
  pose proof (pow_item_bits Hok) as Hp2.
  assert (Hp : 0 < 2 ^ (item_bits - 1)) by (apply Z.pow_pos_nonneg; lia).
  assert (Hgen : forall b, 255 * (get_poison b mod 2 ^ item_bits)
                           = (b mod 256) * (2 ^ item_bits - 1)).
  { intros b. unfold get_poison, load_item. rewrite (item_of_bits_pattern _ Hok).
    pose proof (load_range (Z.to_nat sizeof_item_t)
                  (memset (store_item (fun _ => 0) 0 0) 0 b sizeof_item_t) 0) as Hr.
    rewrite (pow_256_item Hok) in Hr. rewrite Z.mod_small by exact Hr.
    rewrite <- (pow_256_item Hok). apply load_constant.
    - apply Z.mod_pos_bound. lia.
    - intros j Hj. rewrite (sizeof_item_nat Hok) in Hj. unfold memset.
      destruct (Z.leb_spec 0 (0 + j)); [|lia].
      destruct (Z.ltb_spec (0 + j) (0 + sizeof_item_t)); [|lia]. reflexivity. }
  split; [apply Hgen|].
  specialize (Hgen FILL_BYTE). change (FILL_BYTE mod 256) with 117 in Hgen.
  fold POISON in Hgen. pose proof (representable_POISON Hok) as Hr.
  unfold representable in Hr.
  assert (Hm : 0 <= POISON mod 2 ^ item_bits < 2 ^ item_bits)
    by (apply Z.mod_pos_bound; lia).
  destruct (Z_lt_le_dec POISON 0) as [Hneg|Hpos].
  - exfalso.
    assert (E : POISON mod 2 ^ item_bits = POISON + 2 ^ item_bits).
    { symmetry. apply (Z.mod_unique POISON _ (-1)); lia. }
    rewrite E in Hgen. lia.
  - rewrite Z.mod_small in Hgen by lia. split; [exact Hgen|]. lia.
Qed.

Lemma poison_pattern_witness :
  header_ok demo_header /\ POISON (hd := demo_header) = 0x75757575.
Proof.
  split; [exact demo_header_ok|].
  pose proof (proj1 (proj2 (poison_pattern (hd := demo_header) 0 demo_header_ok))) as H.
  change (item_bits (hd := demo_header)) with 32 in H. lia.
Defined.

(** X17. What the checksum covers: [hash_stack] does not depend on the
    checksum stored in the object, and it depends on the memory only
    through the bytes of the slots, from [items] up to
    [capacity * sizeof(item_t)] bytes further.  A write anywhere else, the
    guard words of the buffer included, leaves the checksum as it was. *)
Theorem checksum_scope {hd : header} (s : stack_t) (m m' : mem) (v : Z) :
  (forall x, stk_items s <= x
             < stk_items s + size_wrap (stk_capacity s * sizeof_item_t) ->
             byte_at m' x = byte_at m x) ->
  hash_value (set_hash s v) m' = hash_value s m.
Proof.
  intros H. unfold hash_value, hash_stack. cbn [snd set_hash stk_items stk_capacity
    stk_left_canary stk_right_canary stk_size stk_hash].
  f_equal. f_equal. unfold read_bytes. apply map_ext_in.
  intros i Hi. apply in_seq in Hi. apply H.
  assert (0 <= size_wrap (stk_capacity s * sizeof_item_t))
    by (apply Z.mod_pos_bound; lia).
  lia.
Qed.

Lemma checksum_scope_witness :
  (forall x, stk_items (stk demo_full) <= x
             < stk_items (stk demo_full)
               + size_wrap (stk_capacity (stk demo_full)
                            * sizeof_item_t (header := demo_header)) ->
             byte_at (bytes (hp (poke demo_full 4136 0))) x
             = byte_at (bytes (hp demo_full)) x) /\
  hash_value (hd := demo_header) (set_hash (stk demo_full) 0)
             (bytes (hp (poke demo_full 4136 0)))
  = hash_value (hd := demo_header) (stk demo_full) (bytes (hp demo_full)).
Proof.
  assert (Ei : stk_items (stk demo_full) = 4096) by (vm_compute; reflexivity).
  assert (Ec : size_wrap (stk_capacity (stk demo_full)
                          * sizeof_item_t (header := demo_header)) = 32)
    by (vm_compute; reflexivity).
  assert (H : forall x, stk_items (stk demo_full) <= x
               < stk_items (stk demo_full)
                 + size_wrap (stk_capacity (stk demo_full)
                              * sizeof_item_t (header := demo_header)) ->
               byte_at (bytes (hp (poke demo_full 4136 0))) x
               = byte_at (bytes (hp demo_full)) x).
  { rewrite Ei, Ec. intros x Hx. unfold poke, byte_at. cbn [hp bytes].
    destruct (Z.eqb_spec x 4136); [lia|reflexivity]. }
  split; [exact H|].
  exact (checksum_scope (hd := demo_header) (stk demo_full) _ _ 0 H).
Defined.

(** ** Further properties: failures and the capacity bound *)

(** X18. What can fail on a live stack.  A push never reports an error: it
    stores its element, or, on a full stack, does not return.  A pop always
    returns; it reports an error exactly when the stack is empty, and then
    it leaves the stack object and the heap as they were and returns the
    poison value. *)
Theorem failure_atomic {hd : header} (w : world) (x : Z) (r r' : option Z) :
  header_ok hd -> live w ->
  (forall pw ok, push_checked w x r = Some (pw, ok) -> ok = true) /\
  (push_checked w x r = None <-> expandable (stk w) = true) /\
  exists qw ok y,
    pop_checked w r' = Some (qw, ok, y) /\
    (ok = false <-> stk_size (stk w) = 0) /\
    (ok = false -> qw = w /\ y = POISON).
Proof.
  intros Hok L. destruct (live_holds Hok w L) as [l H].
  rewrite (push_checked_holds Hok w l x r H), (pop_checked_holds Hok w l r' H).
  split; [|split].
  - intros pw ok E. destruct (expandable (stk w)); [discriminate|].
    injection E as _ <-. reflexivity.
  - destruct (expandable (stk w)); split; intros E; try reflexivity; discriminate E.
  - destruct (Z.eqb_spec (stk_size (stk w)) 0) as [E0|Hn].
    + do 3 eexists. split; [reflexivity|]. split; [tauto|]. intros _. split; reflexivity.
    + do 3 eexists. split; [reflexivity|].
      split; [split; [discriminate|contradiction]|discriminate].
Qed.

Lemma failure_atomic_witness :
  header_ok demo_header /\ live (hd := demo_header) demo_full /\
  expandable (stk demo_full) = true /\
  push_checked (hd := demo_header) demo_full 9 None = None.
Proof.
  assert (E : expandable (stk demo_full) = true) by (vm_compute; reflexivity).
  split; [exact demo_header_ok|]. split; [exact demo_full_live|]. split; [exact E|].
  exact (proj2 (proj1 (proj2 (failure_atomic (hd := demo_header) demo_full 9 None None
                                demo_header_ok demo_full_live))) E).
Defined.

(** X19. [push_stack] does not compare the doubled capacity with
    [CAP_MAX].  On a stack that the verifier accepts with
    [size = capacity = CAP_MAX], the doubled capacity wraps to 0; when the
    allocator's call returns a block for the 24 bytes asked for, the push
    stores capacity 0 and size [CAP_MAX + 1] in the object, writes the item
    at the address of index [CAP_MAX], computed modulo [2 ^ 64], and the
    error it reports comes from the outgoing verification, with
    [INVALID_CAPACITY] and [INVALID_SIZE] set. *)
Theorem push_at_cap_max {hd : header} (w : world) (item : Z) (error r : option Z) :
  header_ok hd -> valid w -> reachable w = true ->
  stk_capacity (stk w) = CAP_MAX -> stk_size (stk w) = CAP_MAX ->
  grants r 24 = true ->
  exists w' mask,
    push_stack w item error r = Some (w', set_error error mask) /\
    stk_capacity (stk w') = 0 /\ stk_size (stk w') = CAP_MAX + 1 /\
    Some (stk_items (stk w')) = r /\
    load_item (bytes (hp w')) (size_wrap (stk_items (stk w') + CAP_MAX * sizeof_item_t))
    = item_of_bits item /\
    has_flag mask INVALID_CAPACITY /\ has_flag mask INVALID_SIZE /\ mask <> 0.
Proof.
  intros Hok V A Hc Hs G. unfold valid in V.
  assert (Ew : size_wrap (stk_capacity (stk w) * CAP_FACTOR) = 0)
    by (rewrite Hc; reflexivity).
  assert (Ea : alloc_bytes 0 = 24) by reflexivity.
  assert (He : expandable (stk w) = true)
    by (unfold expandable; rewrite Hc, Hs; reflexivity).
  assert (G' : expandable (stk w) = true ->
               reachable w = true /\
               grants r (alloc_bytes (size_wrap (stk_capacity (stk w) * CAP_FACTOR)))
               = true).
  { intros _. rewrite Ew, Ea. split; assumption. }
  rewrite (push_stack_stores w item error r V G').
  set (w1 := push_commit (push_ready w r) item).
  assert (Ef : stk_capacity (stk w1) = 0 /\ stk_size (stk w1) = CAP_MAX + 1 /\
               Some (stk_items (stk w1)) = r /\
               load_item (bytes (hp w1))
                         (size_wrap (stk_items (stk w1) + CAP_MAX * sizeof_item_t))
               = item_of_bits item).
  { subst w1. destruct (push_commit_fields (push_ready w r) item) as (-> & -> & -> & _).
    unfold push_ready. rewrite He, Ew.
    destruct (reallocated_address (stk w) (hp w) 0 r A) as (q & -> & _ & Eq & _);
      [rewrite Ea; exact G|].
    destruct (reallocated (stk w) (hp w) 0 (Some q)) as [h' q']. cbn [snd] in Eq.
    subst q'. cbn [fst push_commit stk hp set_items set_capacity stk_size stk_capacity
                   stk_items].
    rewrite Hs, bytes_store_item_at. split; [reflexivity|]. split; [reflexivity|].
    split; [reflexivity|]. apply (load_item_store_item Hok). }
  destruct Ef as (Ec & Es & Ei & Ex).
  destruct (verify_mask_flags (stk w1) (bytes (hp w1))) as (Fc & Fs & _).
  assert (Hfc : has_flag (verify_mask (stk w1) (bytes (hp w1))) INVALID_CAPACITY)
    by (apply Fc; right; rewrite Ec; unfold INIT_CAP; lia).
  assert (Hm : verify_mask (stk w1) (bytes (hp w1)) <> 0)
    by (apply (has_flag_nz _ _ Hfc), Hok).
  exists w1, (verify_mask (stk w1) (bytes (hp w1))).
  split; [rewrite finally_nz by exact Hm; reflexivity|].
  split; [exact Ec|]. split; [exact Es|]. split; [exact Ei|]. split; [exact Ex|].
  split; [exact Hfc|]. split; [|exact Hm].
  apply Fs. rewrite Ec, Es. rewrite CAP_MAX_val. lia.
Qed.

Lemma push_at_cap_max_witness :
  header_ok demo_header /\ valid (hd := demo_header) demo_null_huge /\
  reachable demo_null_huge = true /\
  stk_capacity (stk demo_null_huge) = CAP_MAX /\ stk_size (stk demo_null_huge) = CAP_MAX /\
  grants (Some 8192) 24 = true /\
  exists w',
    push_stack (hd := demo_header) demo_null_huge 7 (Some 0) (Some 8192)
    = Some (w', Some 3) /\
    stk_capacity (stk w') = 0 /\ stk_items (stk w') = 8192 /\
    load_item (hd := demo_header) (bytes (hp w')) 8192 = 7.
Proof.
  assert (V : valid (hd := demo_header) demo_null_huge) by (vm_compute; reflexivity).
  split; [exact demo_header_ok|]. split; [exact V|].
  split; [reflexivity|]. split; [reflexivity|]. split; [reflexivity|].
  split; [reflexivity|].
  destruct (push_at_cap_max (hd := demo_header) demo_null_huge 7 (Some 0) (Some 8192)
              demo_header_ok V eq_refl eq_refl eq_refl eq_refl)
    as (w' & mask & E & Hc & _ & Hi & Hx & _).
  exists w'. injection Hi as Hi.
  assert (Em : option_map snd (push_stack (hd := demo_header) demo_null_huge 7 (Some 0)
                                 (Some 8192)) = Some (Some 3))
    by (vm_compute; reflexivity).
  rewrite E in Em. cbn in Em. injection Em as Em.
  split; [rewrite E, Em; reflexivity|]. split; [exact Hc|]. split; [exact Hi|].
  rewrite Hi in Hx. exact Hx.
Defined.
